(** * Bounds-checking macros of PlotPy's [src/debug.hpp]

    The header defines one build switch, [DEBUG], and two statement macros,
    [check] and [check_img_ptr], each in two versions selected by
    [#if DEBUG].  A statement macro is expanded textually at its place of
    use; it can print, and it can make the enclosing function return.

    The embedding below is shallow and follows that reading:
    - a macro argument is an expression of the caller, that is a computation
      over the caller's state which may have effects and may be undefined
      (type [expr]); the label [msg] alone is a value, since the macro
      pastes it to a string literal;
    - a macro expansion is a statement (type [stmt]): it transforms the
      state, of which the standard output is a part, and either falls
      through to the next statement or returns a value from the enclosing
      function;
    - [printf] interprets its format string, of which the label is the
      first part.

    C++ [int] and pointer values are integers of [Z].  [check] only
    compares its operands.  [check_img_ptr] subtracts and multiplies the
    [int] members of the view: these operations are those of a 32-bit
    two's-complement [int] and wrap around, as the compiled code does.  A
    pointer is the address it holds, counted in elements of the pointed
    type, which is the unit of C++ pointer arithmetic and of the strides;
    adding an [int] to a pointer is the sum of [Z]. *)

From Stdlib Require Import ZArith String Ascii List Bool Lia.
From Stdlib Require Import DecimalString HexadecimalString.
From Stdlib Require DecimalPos DecimalZ.
Import ListNotations.

Local Open Scope Z_scope.

(** ** Text *)

(** The line feed, written [\n] in the header's string literals. *)
Definition LF : ascii := "010"%char.

Definition endl : string := String LF EmptyString.

(** [mentions c s]: the character [c] occurs in [s]. *)
Fixpoint mentions (c : ascii) (s : string) : bool :=
  match s with
  | EmptyString => false
  | String a s' => Ascii.eqb a c || mentions c s'
  end.

(** [occurs t s]: the text [t] occurs in [s] as a contiguous piece. *)
Fixpoint occurs (t s : string) : bool :=
  String.prefix t s ||
  match s with
  | EmptyString => false
  | String _ s' => occurs t s'
  end.

(** [one_line s]: [s] is one complete line, the line feed being its last
    character and occurring nowhere else. *)
Fixpoint one_line (s : string) : bool :=
  match s with
  | EmptyString => false
  | String a s' =>
      if Ascii.eqb a LF
      then match s' with EmptyString => true | String _ _ => false end
      else one_line s'
  end.

(** A label is plain when [printf] copies it as it is and it stays within
    one line: no conversion character and no line feed. *)
Definition plain_label (msg : string) : bool :=
  negb (mentions "%"%char msg) && negb (mentions LF msg).

(** ** The C library's [printf] *)

(** The rendering of [%p] is left to the implementation by the standard. *)
Class Libc : Type := { show_ptr : Z -> string }.

(** The rendering of glibc: [(nil)] for the null pointer, else [0x] and
    the address in lower-case hexadecimal. *)
Definition glibc_show_ptr (a : Z) : string :=
  if a =? 0 then "(nil)"%string
  else ("0x" ++ HexadecimalString.NilZero.string_of_uint
                  (N.to_hex_uint (Z.to_N a)))%string.

#[export] Instance glibc : Libc := {| show_ptr := glibc_show_ptr |}.

(** The rendering of [%d]: decimal digits, with a minus sign below zero. *)
Definition show_int (z : Z) : string :=
  DecimalString.NilZero.string_of_int (Z.to_int z).

(** A variadic argument, by the type it is passed at. *)
Inductive arg : Type :=
  | Int (z : Z)
  | Ptr (a : Z).

(** The text [printf] produces from a format and its arguments.  The
    conversions modelled are those the header uses, [%d] and [%p], and the
    escape [%%].  [None] stands for a call the model gives no meaning to:
    another conversion, a missing argument, or an argument of the wrong
    type (undefined in C).  Arguments in excess are ignored, as in C. *)
Fixpoint format `{Libc} (fmt : string) (args : list arg) : option string :=
  match fmt with
  | EmptyString => Some EmptyString
  | String c rest =>
      if Ascii.eqb c "%"%char then
        match rest with
        | EmptyString => None
        | String k rest' =>
            if Ascii.eqb k "%"%char then
              option_map (String "%"%char) (format rest' args)
            else if Ascii.eqb k "d"%char then
              match args with
              | Int z :: args' =>
                  option_map (String.append (show_int z)) (format rest' args')
              | _ => None
              end
            else if Ascii.eqb k "p"%char then
              match args with
              | Ptr a :: args' =>
                  option_map (String.append (show_ptr a)) (format rest' args')
              | _ => None
              end
            else None
        end
      else option_map (String c) (format rest args)
  end.

(** ** States, expressions and statements *)

(** The state of the running program: the caller's own state, of any type
    [S], and what has been written to the standard output so far. *)
Record world (S : Type) : Type := World { store : S; stdout : string }.

Arguments World {S} _ _.
Arguments store {S} _.
Arguments stdout {S} _.

(** Writing [text] to the standard output. *)
Definition emit {S : Type} (text : string) (w : world S) : world S :=
  {| store := store w; stdout := (stdout w ++ text)%string |}.

(** An expression evaluates to a value and a new state, or is undefined. *)
Definition expr (S A : Type) : Type := world S -> option (A * world S).

(** How a statement ends: control goes on to the next statement, or the
    enclosing function returns [r]. *)
Inductive flow (R : Type) : Type :=
  | Next
  | Ret (r : R).

Arguments Next {R}.
Arguments Ret {R} r.

Definition stmt (S R : Type) : Type := expr S (flow R).

Definition pure {S A : Type} (a : A) : expr S A := fun w => Some (a, w).

Definition bind {S A B : Type} (e : expr S A) (k : A -> expr S B) : expr S B :=
  fun w =>
    match e w with
    | Some (a, w') => k a w'
    | None => None
    end.

Declare Scope cpp_scope.
Delimit Scope cpp_scope with cpp.

Notation "'let*' x ':=' e 'in' k" := (bind e (fun x => k))
  (at level 10, x name, e at level 100, k at level 200).

(** The type [int]: 32 bits, two's complement. *)
Definition int_min : Z := - 2 ^ 31.
Definition int_max : Z := 2 ^ 31 - 1.

(** [fits_int z]: [z] is a value of type [int]. *)
Definition fits_int (z : Z) : Prop := int_min <= z <= int_max.

(** The value of type [int] congruent to [z] modulo [2^32]: what an
    operation of exact result [z] leaves in an [int]. *)
Definition wrap_int (z : Z) : Z := (z + 2 ^ 31) mod 2 ^ 32 - 2 ^ 31.

Definition int_sub (a b : Z) : Z := wrap_int (a - b).
Definition int_mul (a b : Z) : Z := wrap_int (a * b).

Definition lift2 {S A B C : Type} (f : A -> B -> C)
    (a : expr S A) (b : expr S B) : expr S C :=
  let* x := a in let* y := b in pure (f x y).

(** The operators the header uses.  The operands of a binary operator are
    evaluated from left to right (C++ leaves their order open; the order
    shows only when the operands have effects). *)
Definition c_lt {S} : expr S Z -> expr S Z -> expr S bool := lift2 Z.ltb.
Definition c_gt {S} : expr S Z -> expr S Z -> expr S bool := lift2 Z.gtb.
Definition c_ge {S} : expr S Z -> expr S Z -> expr S bool := lift2 Z.geb.

(** [a - b] and [a * b] on operands of type [int]. *)
Definition c_sub {S} : expr S Z -> expr S Z -> expr S Z := lift2 int_sub.
Definition c_mul {S} : expr S Z -> expr S Z -> expr S Z := lift2 int_mul.

(** [a + b] on a pointer and an [int], the one sum of the header. *)
Definition c_add {S} : expr S Z -> expr S Z -> expr S Z := lift2 Z.add.

(** [a || b] evaluates [b] only when [a] is false. *)
Definition c_or {S} (a b : expr S bool) : expr S bool :=
  let* x := a in if x then pure true else b.

(** Member access [e.f]. *)
Definition member {S A B : Type} (e : expr S A) (f : A -> B) : expr S B :=
  let* v := e in pure (f v).

Notation "a < b" := (c_lt a b) : cpp_scope.
Notation "a > b" := (c_gt a b) : cpp_scope.
Notation "a >= b" := (c_ge a b) : cpp_scope.
Notation "a + b" := (c_add a b) : cpp_scope.
Notation "a - b" := (c_sub a b) : cpp_scope.
Notation "a * b" := (c_mul a b) : cpp_scope.
Notation "a || b" := (c_or a b) : cpp_scope.
Notation "e '.>' f" := (member e f)
  (at level 1, left associativity, f at level 0) : cpp_scope.

(** The empty statement [;]. *)
Definition skip {S R : Type} : stmt S R := pure Next.

(** [s1 s2] in sequence: [s2] runs only when [s1] falls through. *)
Definition Seq {S R : Type} (s1 s2 : stmt S R) : stmt S R :=
  let* f := s1 in
  match f with
  | Next => s2
  | Ret r => pure (Ret r)
  end.

(** [if (c) s], without [else]. *)
Definition IfThen {S R : Type} (c : expr S bool) (s : stmt S R) : stmt S R :=
  let* b := c in if b then s else skip.

(** [return e;] *)
Definition Return {S R : Type} (e : expr S R) : stmt S R :=
  let* r := e in pure (Ret r).

Fixpoint eval_args {S : Type} (es : list (expr S arg)) : expr S (list arg) :=
  match es with
  | [] => pure []
  | e :: es' => let* v := e in let* vs := eval_args es' in pure (v :: vs)
  end.

(** [printf(fmt, args...);] as a statement: the arguments are evaluated,
    the text is written to the standard output. *)
Definition printf `{Libc} {S R : Type} (fmt : string)
    (args : list (expr S arg)) : stmt S R :=
  let* vs := eval_args args in
  fun w =>
    match format fmt vs with
    | Some text => Some (Next, emit text w)
    | None => None
    end.

Notation "s1 ;; s2" := (Seq s1 s2)
  (at level 100, s2 at level 200, right associativity) : cpp_scope.
Notation "'If' c 'Then' s" := (IfThen c s)
  (at level 10, c at level 100, s at level 200) : cpp_scope.

(** An argument passed for [%d], for [%p]. *)
Definition as_int {S} (e : expr S Z) : expr S arg := let* v := e in pure (Int v).
Definition as_ptr {S} (e : expr S Z) : expr S arg := let* v := e in pure (Ptr v).

(** A call of the enclosing function with body [body]: its result is the
    value the body returns.  Leaving the body without [return] gives no
    result. *)
Definition call {S R : Type} (body : stmt S R) : expr S R :=
  fun w =>
    match body w with
    | Some (Ret r, w') => Some (r, w')
    | _ => None
    end.

(** ** The buffer descriptor *)

(** Modelled from the spec: the type of the macro argument [img] is not
    declared in the header, which only reads its members [base], [ni],
    [nj], [si] and [sj].  Section 3 of the specification describes it as a
    strided two-dimensional view: the address of element (0,0), the two
    extents and the two strides. *)
Record BufferDescriptor : Type := {
  base : Z;
  ni : Z;
  nj : Z;
  si : Z;
  sj : Z
}.

(** The addresses of the elements of a view (section 3 of the
    specification): [base + i*si + j*sj] with [i] and [j] within the
    extents. *)
Definition element_address (img : BufferDescriptor) (p : Z) : Prop :=
  exists i j : Z,
    0 <= i < ni img /\ 0 <= j < nj img /\
    p = base img + i * si img + j * sj img.

(** The address of the last element as the specification writes it
    (section 4.3). *)
Definition last_address (img : BufferDescriptor) : Z :=
  base img + (ni img - 1) * si img + (nj img - 1) * sj img.

(** The address the macro computes for it: the differences and the
    products are operations of [int], the sums add to the pointer. *)
Definition computed_last (img : BufferDescriptor) : Z :=
  base img + int_mul (int_sub (ni img) 1) (si img)
           + int_mul (int_sub (nj img) 1) (sj img).

(** [no_overflow img]: none of the differences and products the macro
    computes on [img] leaves the range of [int]. *)
Definition no_overflow (img : BufferDescriptor) : Prop :=
  fits_int (ni img - 1) /\ fits_int ((ni img - 1) * si img)
  /\ fits_int (nj img - 1) /\ fits_int ((nj img - 1) * sj img).

(** [int_members img]: the extents and strides are values of type [int],
    as the members the macro prints with [%d] are. *)
Definition int_members (img : BufferDescriptor) : Prop :=
  fits_int (ni img) /\ fits_int (nj img)
  /\ fits_int (si img) /\ fits_int (sj img).

(** ** The macros, [#if DEBUG] *)

Module DebugOn.
Section Macros.
Context `{Libc} {S R : Type}.
Local Open Scope cpp_scope.

(** [{ printf(msg "%d out of bound (%d)\n", x, n); return r; }] *)
Definition check_block (msg : string) (x n : expr S Z) (r : expr S R)
    : stmt S R :=
  printf (msg ++ "%d out of bound (%d)" ++ endl)%string
         [as_int x; as_int n] ;;
  Return r.

(** [#define check(msg, x, n, r) if (x < 0 || x >= n) { ... }] *)
Definition check (msg : string) (x n : expr S Z) (r : expr S R)
    : stmt S R :=
  If (x < pure 0) || (x >= n) Then check_block msg x n r.

(** [{ printf(msg "%p out of bound (%p,%dx%d, %dx%d\n",
              p, img.base, img.ni, img.si, img.nj, img.sj); return r; }] *)
Definition check_img_ptr_block (msg : string) (p : expr S Z) (r : expr S R)
    (img : expr S BufferDescriptor) : stmt S R :=
  printf (msg ++ "%p out of bound (%p,%dx%d, %dx%d" ++ endl)%string
         [as_ptr p; as_ptr img.>base; as_int img.>ni; as_int img.>si;
          as_int img.>nj; as_int img.>sj] ;;
  Return r.

(** [#define check_img_ptr(msg, p, r, img)
       if (p < img.base ||
           p > (img.base + (img.ni - 1) * img.si + (img.nj - 1) * img.sj))
       { ... }] *)
Definition check_img_ptr (msg : string) (p : expr S Z) (r : expr S R)
    (img : expr S BufferDescriptor) : stmt S R :=
  If (p < img.>base) ||
     (p > (img.>base + (img.>ni - pure 1) * img.>si
                     + (img.>nj - pure 1) * img.>sj))
  Then check_img_ptr_block msg p r img.
End Macros.
End DebugOn.

(** ** The macros, [#else] *)

Module DebugOff.
Section Macros.
Context {S R : Type}.

(** [#define check(msg, x, n, r) ;] *)
Definition check (msg : string) (x n : expr S Z) (r : expr S R)
    : stmt S R :=
  skip.

(** [#define check_img_ptr(msg, p, r, img) ;] *)
Definition check_img_ptr (msg : string) (p : expr S Z) (r : expr S R)
    (img : expr S BufferDescriptor) : stmt S R :=
  skip.
End Macros.
End DebugOff.

(** ** The build switch *)

(** [#define DEBUG 0] *)
Definition DEBUG : Z := 0.

(** [#if c ... #else ... #endif]: the first group is kept when the
    constant [c] is not zero, the second when it is zero. *)
Definition pp_if {A : Type} (c : Z) (group1 group2 : A) : A :=
  if c =? 0 then group2 else group1.

(** The header as the preprocessor leaves it when [DEBUG] is defined as
    [debug]. *)
Definition check_under `{Libc} {S R : Type} (debug : Z)
    : string -> expr S Z -> expr S Z -> expr S R -> stmt S R :=
  pp_if debug DebugOn.check DebugOff.check.

Definition check_img_ptr_under `{Libc} {S R : Type} (debug : Z)
    : string -> expr S Z -> expr S R -> expr S BufferDescriptor -> stmt S R :=
  pp_if debug DebugOn.check_img_ptr DebugOff.check_img_ptr.

(** The header as shipped. *)
Definition check `{Libc} {S R : Type} := @check_under _ S R DEBUG.
Definition check_img_ptr `{Libc} {S R : Type} := @check_img_ptr_under _ S R DEBUG.

(** ** The diagnostic lines *)

(** The line of an index violation (section 6 of the specification): the
    label, then [<x> out of bound (<n>)]. *)
Definition index_violation_line (msg : string) (x n : Z) : string :=
  (msg ++ show_int x ++ " out of bound (" ++ show_int n ++ ")" ++ endl)%string.

(** The line of a pointer violation as the header's format gives it: the
    label, then [<p> out of bound (<base>,<ni>x<si>, <nj>x<sj>], with no
    closing parenthesis. *)
Definition pointer_violation_line `{Libc} (msg : string) (p : Z)
    (img : BufferDescriptor) : string :=
  (msg ++ show_ptr p ++ " out of bound (" ++ show_ptr (base img) ++ ","
       ++ show_int (ni img) ++ "x" ++ show_int (si img) ++ ", "
       ++ show_int (nj img) ++ "x" ++ show_int (sj img) ++ endl)%string.

(** ** Invoking a statement twice *)

(** A statement that keeps nothing from one invocation to the next acts
    on the state by its outcome alone: how it ends and the text it
    writes, or no outcome when it is undefined. *)
Definition outcome (R : Type) : Type := option (flow R * string).

Definition replay {S R : Type} (o : outcome R) : stmt S R :=
  fun w =>
    match o with
    | Some (f, text) => Some (f, emit text w)
    | None => None
    end.

(** [repeats s w]: invoked in [w] and then once more in the state the
    first invocation leaves, [s] ends the same way both times and writes
    the same text both times, which is empty exactly when [s] falls
    through; or [s] is undefined in every state. *)
Definition repeats {S R : Type} (s : stmt S R) (w : world S) : Prop :=
  match s w with
  | Some (f, w1) =>
      exists text : string,
        w1 = emit text w
        /\ s w1 = Some (f, emit text w1)
        /\ (f = Next <-> text = EmptyString)
  | None => forall w' : world S, s w' = None
  end.

(** ** Labels with a percent sign *)

(** The label the caller has to write for the text [t] to be printed:
    [printf] prints one percent sign for [%%]. *)
Fixpoint escape_percent (t : string) : string :=
  match t with
  | EmptyString => EmptyString
  | String c t' =>
      if Ascii.eqb c "%"%char
      then String "%"%char (String "%"%char (escape_percent t'))
      else String c (escape_percent t')
  end.

(** * Properties *)

(** ** Text *)

Section TextFacts.
Local Open Scope string_scope.

Lemma append_empty_r (s : string) : s ++ EmptyString = s.
Proof. induction s as [|a s IH]; simpl; [reflexivity | now rewrite IH]. Qed.

Lemma append_assoc (a b c : string) : (a ++ b) ++ c = a ++ (b ++ c).
Proof. induction a as [|x a IH]; simpl; [reflexivity | now rewrite IH]. Qed.

Lemma prefix_append (t s : string) : String.prefix t (t ++ s) = true.
Proof.
  induction t as [|a t IH]; simpl.
  - now destruct s.
  - destruct (ascii_dec a a) as [_|N]; [exact IH | now elim N].
Qed.

Lemma occurs_prefix (t s : string) :
  String.prefix t s = true -> occurs t s = true.
Proof. intros P. destruct s; simpl in *; now rewrite P. Qed.

Lemma occurs_append_l (a t s : string) :
  occurs t s = true -> occurs t (a ++ s) = true.
Proof.
  intros O. induction a as [|x a IH]; simpl; [exact O|].
  rewrite IH. apply orb_true_r.
Qed.

Lemma occurs_middle (a t b : string) : occurs t (a ++ t ++ b) = true.
Proof. apply occurs_append_l, occurs_prefix, prefix_append. Qed.

Lemma mentions_append (c : ascii) (a b : string) :
  mentions c (a ++ b) = mentions c a || mentions c b.
Proof.
  induction a as [|x a IH]; simpl; [reflexivity|].
  now rewrite IH, orb_assoc.
Qed.

Lemma one_line_append (a b : string) :
  mentions LF a = false -> one_line (a ++ b) = one_line b.
Proof.
  induction a as [|x a IH]; simpl; [reflexivity|].
  intros M. apply orb_false_elim in M as [Mx Ma].
  rewrite Mx. now apply IH.
Qed.

Lemma plain_label_no_percent (msg : string) :
  plain_label msg = true -> mentions "%"%char msg = false.
Proof.
  unfold plain_label. intros P.
  apply andb_true_iff in P as [P _]. now apply negb_true_iff in P.
Qed.

Lemma plain_label_no_LF (msg : string) :
  plain_label msg = true -> mentions LF msg = false.
Proof.
  unfold plain_label. intros P.
  apply andb_true_iff in P as [_ P]. now apply negb_true_iff in P.
Qed.

(** A decimal numeral holds digits and a sign, never a line feed. *)
Lemma show_uint_no_LF (d : Decimal.uint) :
  mentions LF (DecimalString.NilEmpty.string_of_uint d) = false.
Proof. induction d; simpl; auto. Qed.

Lemma show_int_no_LF (z : Z) : mentions LF (show_int z) = false.
Proof.
  unfold show_int, DecimalString.NilZero.string_of_int,
    DecimalString.NilZero.string_of_uint.
  destruct (Z.to_int z) as [d|d]; destruct d; simpl;
    auto using show_uint_no_LF.
Qed.

Lemma index_violation_line_one_line (msg : string) (x n : Z) :
  mentions LF msg = false -> one_line (index_violation_line msg x n) = true.
Proof.
  intros M. unfold index_violation_line.
  rewrite (one_line_append msg) by exact M.
  rewrite one_line_append by apply show_int_no_LF.
  rewrite (one_line_append " out of bound (") by reflexivity.
  rewrite one_line_append by apply show_int_no_LF.
  reflexivity.
Qed.
End TextFacts.

Create HintDb text discriminated.
#[export] Hint Resolve prefix_append occurs_middle show_int_no_LF
  plain_label_no_percent plain_label_no_LF index_violation_line_one_line
  : text.

(** ** [printf] *)

Section PrintfFacts.
Context `{Libc}.
Local Open Scope string_scope.

(** A label without conversion character is copied as it is. *)
Lemma format_plain_prefix (msg fmt : string) (args : list arg) :
  mentions "%"%char msg = false ->
  format (msg ++ fmt) args = option_map (String.append msg) (format fmt args).
Proof.
  induction msg as [|c msg IH]; simpl; intros M.
  - now destruct (format fmt args).
  - apply orb_false_elim in M as [Mc Mm].
    rewrite Mc, (IH Mm). now destruct (format fmt args).
Qed.

Lemma format_index (msg : string) (x n : Z) :
  mentions "%"%char msg = false ->
  format (msg ++ "%d out of bound (%d)" ++ endl) [Int x; Int n]
  = Some (index_violation_line msg x n).
Proof.
  intros M. rewrite format_plain_prefix by exact M.
  unfold index_violation_line. reflexivity.
Qed.

Lemma format_pointer (msg : string) (p : Z) (img : BufferDescriptor) :
  mentions "%"%char msg = false ->
  format (msg ++ "%p out of bound (%p,%dx%d, %dx%d" ++ endl)
         [Ptr p; Ptr (base img); Int (ni img); Int (si img);
          Int (nj img); Int (sj img)]
  = Some (pointer_violation_line msg p img).
Proof.
  intros M. rewrite format_plain_prefix by exact M.
  unfold pointer_violation_line. reflexivity.
Qed.
End PrintfFacts.

(** ** Running the macros on values *)

(** The tests of the two macros are comparisons of [Z]; [settle_tests]
    splits on each and leaves the arithmetic to [lia]. *)
Ltac settle_tests :=
  rewrite ?Z.geb_leb, ?Z.gtb_ltb;
  repeat match goal with
         | |- context [?a <? ?b] => destruct (Z.ltb_spec a b)
         | |- context [?a <=? ?b] => destruct (Z.leb_spec a b)
         end;
  simpl; try reflexivity; try lia.

Section Running.
Context `{Libc} {S R : Type}.

(** With values for [x] and [n], [check] tests them and either runs its
    block or does nothing. *)
Lemma check_decides (msg : string) (x n : Z) (r : expr S R) (w : world S) :
  DebugOn.check msg (pure x) (pure n) r w =
  if (x <? 0) || (x >=? n)
  then DebugOn.check_block msg (pure x) (pure n) r w
  else Some (Next, w).
Proof.
  unfold DebugOn.check, IfThen, c_or, c_lt, c_ge, lift2, bind, pure, skip.
  destruct (x <? 0), (x >=? n); reflexivity.
Qed.

Lemma check_block_runs (msg : string) (x n : Z) (r : R) (w : world S) :
  mentions "%"%char msg = false ->
  DebugOn.check_block msg (pure x) (pure n) (pure r) w =
  Some (Ret r, emit (index_violation_line msg x n) w).
Proof.
  intros M.
  unfold DebugOn.check_block, Seq, Return, printf, eval_args, as_int, bind, pure.
  now rewrite (format_index msg x n M).
Qed.

(** A block never falls through: it returns, or it is undefined. *)
Lemma check_block_never_next (msg : string) (x n : Z) (r : R) (w w' : world S) :
  DebugOn.check_block msg (pure x) (pure n) (pure r) w <> Some (Next, w').
Proof.
  unfold DebugOn.check_block, Seq, Return, printf, eval_args, as_int, bind, pure.
  destruct (format _ _); discriminate.
Qed.

(** What follows a statement that returns is not run; what follows a
    statement that falls through runs in the state it leaves. *)
Lemma Seq_ret (s rest : stmt S R) (r : R) (w w' : world S) :
  s w = Some (Ret r, w') -> (s ;; rest)%cpp w = Some (Ret r, w').
Proof. unfold Seq, bind. now intros ->. Qed.

Lemma Seq_next (s rest : stmt S R) (w w' : world S) :
  s w = Some (Next, w') -> (s ;; rest)%cpp w = rest w'.
Proof. unfold Seq, bind. now intros ->. Qed.

Lemma call_ret (body : stmt S R) (r : R) (w w' : world S) :
  body w = Some (Ret r, w') -> call body w = Some (r, w').
Proof. unfold call. now intros ->. Qed.
End Running.

(** ** The index check *)

(** C1, as amended.  With the switch enabled, a label that holds neither a
    conversion character [%] nor a line feed, and integers [x] and [n]
    with [x < 0] or [x >= n]: the function whose body reaches
    [check(msg, x, n, r)] returns the sentinel [r], whatever follows the
    check in the body, and the standard output has grown by exactly one
    line, which starts with the label and holds the numerals of [x] and
    of [n]. *)
Theorem check_out_of_range_reports :
  forall `{Libc} (S R : Type) (msg : string) (x n : Z) (r : R)
         (rest : stmt S R) (w : world S),
    plain_label msg = true ->
    x < 0 \/ x >= n ->
    call (DebugOn.check msg (pure x) (pure n) (pure r) ;; rest)%cpp w
      = Some (r, emit (index_violation_line msg x n) w)
    /\ one_line (index_violation_line msg x n) = true
    /\ String.prefix msg (index_violation_line msg x n) = true
    /\ occurs (show_int x) (index_violation_line msg x n) = true
    /\ occurs (show_int n) (index_violation_line msg x n) = true.
Proof.
  intros L S R msg x n r rest w P O.
  split; [|split; [|split; [|split]]].
  - apply call_ret, Seq_ret.
    rewrite check_decides.
    replace ((x <? 0) || (x >=? n)) with true by (symmetry; settle_tests).
    apply check_block_runs. auto with text.
  - auto with text.
  - unfold index_violation_line. auto with text.
  - unfold index_violation_line. auto with text.
  - unfold index_violation_line.
    rewrite <- (append_assoc msg), <- (append_assoc (msg ++ show_int x)).
    auto with text.
Qed.

Lemma check_out_of_range_reports_witness :
  plain_label "Array1D::value i:" = true
  /\ (-1 < 0 \/ -1 >= 10)
  /\ call (DebugOn.check "Array1D::value i:" (pure (-1)) (pure 10) (pure 0) ;;
           (fun _ : world unit => None))%cpp (World tt EmptyString)
     = Some (0, emit (index_violation_line "Array1D::value i:" (-1) 10)
                     (World tt EmptyString))
  /\ index_violation_line "Array1D::value i:" (-1) 10
     = ("Array1D::value i:-1 out of bound (10)" ++ endl)%string.
Proof.
  split; [reflexivity|]. split; [left; lia|]. split; [|reflexivity].
  apply (check_out_of_range_reports unit Z "Array1D::value i:" (-1) 10 0).
  - reflexivity.
  - left; lia.
Defined.

(** C1 as stated fails on a label that ends in [%]: pasted before [%d] it
    gives the format [ratio%%d out of bound (%d)], which prints a percent
    sign, the letter [d] and then [x] where [n] was meant; [n] is not
    printed.  It fails as well on a label that holds a line feed, where
    the text printed is more than one line. *)
Lemma check_label_with_percent_omits_n :
  (-1 < 0 \/ -1 >= 10)
  /\ DebugOn.check "ratio%" (pure (-1)) (pure 10) (pure 0)
       (World tt EmptyString)
     = Some (Ret 0, World tt ("ratio%d out of bound (-1)" ++ endl)%string)
  /\ occurs (show_int 10) ("ratio%d out of bound (-1)" ++ endl)%string = false
  /\ DebugOn.check ("row" ++ endl ++ "i:")%string (pure (-1)) (pure 10) (pure 0)
       (World tt EmptyString)
     = Some (Ret 0, World tt ("row" ++ endl ++ "i:-1 out of bound (10)"
                              ++ endl)%string)
  /\ one_line ("row" ++ endl ++ "i:-1 out of bound (10)" ++ endl)%string
     = false.
Proof. split; [left; lia|]. repeat split; reflexivity. Qed.

(** C2.  With the switch enabled and [0 <= x < n], [check(msg, x, n, r)]
    falls through and leaves the state, the standard output included, as
    it was; the sentinel expression is not evaluated and the statements
    after the check run as if the check were not there. *)
Theorem check_in_range_continues :
  forall `{Libc} (S R : Type) (msg : string) (x n : Z) (r : expr S R)
         (rest : stmt S R) (w : world S),
    0 <= x < n ->
    DebugOn.check msg (pure x) (pure n) r w = Some (Next, w)
    /\ (DebugOn.check msg (pure x) (pure n) r ;; rest)%cpp w = rest w.
Proof.
  intros L S R msg x n r rest w I.
  assert (E : DebugOn.check msg (pure x) (pure n) r w = Some (Next, w)).
  { rewrite check_decides.
    replace ((x <? 0) || (x >=? n)) with false by (symmetry; settle_tests).
    reflexivity. }
  split; [exact E | now apply Seq_next].
Qed.

Lemma check_in_range_continues_witness :
  0 <= 3 < 10
  /\ DebugOn.check "i:" (pure 3) (pure 10) (fun _ : world unit => @None (Z * world unit))
       (World tt EmptyString)
     = Some (Next, World tt EmptyString).
Proof.
  split; [lia|].
  apply (check_in_range_continues unit Z "i:" 3 10 (fun _ => None) skip). lia.
Defined.

(** ** The pointer check *)

(** ** Arithmetic of [int] *)

Section IntFacts.

Lemma wrap_int_fits (z : Z) : fits_int z -> wrap_int z = z.
Proof.
  unfold fits_int, int_min, int_max, wrap_int. intros F.
  rewrite Z.mod_small by lia. lia.
Qed.

(** Without overflow the macro computes the last address of the
    specification. *)
Lemma computed_last_no_overflow (img : BufferDescriptor) :
  no_overflow img -> computed_last img = last_address img.
Proof.
  intros (Fi & Pi & Fj & Pj). unfold computed_last, last_address, int_sub.
  rewrite (wrap_int_fits (ni img - 1) Fi), (wrap_int_fits (nj img - 1) Fj).
  unfold int_mul. now rewrite (wrap_int_fits _ Pi), (wrap_int_fits _ Pj).
Qed.
End IntFacts.

Section RunningPointer.
Context `{Libc} {S R : Type}.

(** With values for [p] and [img], [check_img_ptr] compares [p] with the
    two ends of the span and either runs its block or does nothing. *)
Lemma check_img_ptr_decides (msg : string) (p : Z) (r : expr S R)
    (img : BufferDescriptor) (w : world S) :
  DebugOn.check_img_ptr msg (pure p) r (pure img) w =
  if (p <? base img) ||
     (p >? computed_last img)
  then DebugOn.check_img_ptr_block msg (pure p) r (pure img) w
  else Some (Next, w).
Proof.
  unfold DebugOn.check_img_ptr, IfThen, c_or, c_lt, c_gt, c_add, c_sub,
    c_mul, member, lift2, bind, pure, skip, computed_last.
  destruct (p <? base img), (p >? _); reflexivity.
Qed.

Lemma check_img_ptr_block_runs (msg : string) (p : Z) (r : R)
    (img : BufferDescriptor) (w : world S) :
  mentions "%"%char msg = false ->
  DebugOn.check_img_ptr_block msg (pure p) (pure r) (pure img) w =
  Some (Ret r, emit (pointer_violation_line msg p img) w).
Proof.
  intros M.
  unfold DebugOn.check_img_ptr_block, Seq, Return, printf, eval_args,
    as_int, as_ptr, member, bind, pure.
  now rewrite (format_pointer msg p img M).
Qed.

Lemma check_img_ptr_block_never_next (msg : string) (p : Z) (r : R)
    (img : BufferDescriptor) (w w' : world S) :
  DebugOn.check_img_ptr_block msg (pure p) (pure r) (pure img) w
  <> Some (Next, w').
Proof.
  unfold DebugOn.check_img_ptr_block, Seq, Return, printf, eval_args,
    as_int, as_ptr, member, bind, pure.
  destruct (format _ _); discriminate.
Qed.

(** The test of [check_img_ptr], in terms of the span. *)
Lemma img_ptr_test_true (p : Z) (img : BufferDescriptor) :
  (p <? base img) ||
  (p >? computed_last img) = true
  <-> p < base img \/ p > computed_last img.
Proof.
  rewrite orb_true_iff, Z.ltb_lt, Z.gtb_ltb, Z.ltb_lt. lia.
Qed.

Lemma img_ptr_test_false (p : Z) (img : BufferDescriptor) :
  (p <? base img) ||
  (p >? computed_last img) = false
  <-> base img <= p <= computed_last img.
Proof.
  rewrite orb_false_iff, Z.ltb_ge, Z.gtb_ltb, Z.ltb_ge. lia.
Qed.

Lemma check_img_ptr_inside (msg : string) (p : Z) (r : expr S R)
    (img : BufferDescriptor) (w : world S) :
  base img <= p <= computed_last img ->
  DebugOn.check_img_ptr msg (pure p) r (pure img) w = Some (Next, w).
Proof.
  intros I. rewrite check_img_ptr_decides.
  now rewrite (proj2 (img_ptr_test_false p img) I).
Qed.

Lemma check_img_ptr_outside (msg : string) (p : Z) (r : expr S R)
    (img : BufferDescriptor) (w : world S) :
  p < base img \/ p > computed_last img ->
  DebugOn.check_img_ptr msg (pure p) r (pure img) w
  = DebugOn.check_img_ptr_block msg (pure p) r (pure img) w.
Proof.
  intros O. rewrite check_img_ptr_decides.
  now rewrite (proj2 (img_ptr_test_true p img) O).
Qed.

Lemma check_img_ptr_passes_iff (msg : string) (p : Z) (r : R)
    (img : BufferDescriptor) (w : world S) :
  DebugOn.check_img_ptr msg (pure p) (pure r) (pure img) w = Some (Next, w)
  <-> base img <= p <= computed_last img.
Proof.
  split; [|apply check_img_ptr_inside].
  intros E.
  destruct (Z_lt_le_dec p (base img)) as [Lo|Lo];
    [|destruct (Z_lt_le_dec (computed_last img) p) as [Hi|Hi]; [|lia]].
  all: rewrite check_img_ptr_outside in E by lia.
  all: now apply check_img_ptr_block_never_next in E.
Qed.

Lemma check_img_ptr_fails_iff (msg : string) (p : Z) (r : R)
    (img : BufferDescriptor) (w : world S) :
  DebugOn.check_img_ptr msg (pure p) (pure r) (pure img) w
  = DebugOn.check_img_ptr_block msg (pure p) (pure r) (pure img) w
  <-> p < base img \/ p > computed_last img.
Proof.
  split; [|apply check_img_ptr_outside].
  intros E.
  destruct (Z_lt_le_dec p (base img)) as [Lo|Lo]; [now left|].
  destruct (Z_lt_le_dec (computed_last img) p) as [Hi|Hi]; [right; lia|].
  rewrite check_img_ptr_inside in E by lia.
  symmetry in E. now apply check_img_ptr_block_never_next in E.
Qed.
End RunningPointer.

(** C3, as amended.  With the switch enabled and a label that holds no
    conversion character [%], [check_img_ptr(msg, p, r, img)] accepts
    exactly the addresses from [img.base] to [last], both included, where
    [last] is [img.base + (img.ni - 1) * img.si + (img.nj - 1) * img.sj]
    as the macro computes it, the differences and products in 32-bit
    [int]: it falls through, the state unchanged, if and only if [p] is
    in that span, and it prints the diagnostic line and makes the
    enclosing function return [r] if and only if [p < img.base] or
    [p > last].  When none of the differences and products overflows,
    [last] is the value of the formula in the integers.  For the view
    with [ni = 4], [nj = 3], [si = 3], [sj = 1] at base [B], the pointers
    [B] and [B + 11] pass and [B + 12] fails. *)
Theorem check_img_ptr_accepts_span :
  forall `{Libc} (S R : Type) (msg : string) (p : Z) (r : R)
         (img : BufferDescriptor) (w : world S),
    mentions "%"%char msg = false ->
    (DebugOn.check_img_ptr msg (pure p) (pure r) (pure img) w = Some (Next, w)
     <-> base img <= p <= computed_last img)
    /\ (DebugOn.check_img_ptr msg (pure p) (pure r) (pure img) w
        = Some (Ret r, emit (pointer_violation_line msg p img) w)
        <-> p < base img \/ p > computed_last img)
    /\ (no_overflow img -> computed_last img = last_address img)
    /\ (forall B : Z,
          let view := {| base := B; ni := 4; nj := 3; si := 3; sj := 1 |} in
          DebugOn.check_img_ptr msg (pure B) (pure r) (pure view) w
            = Some (Next, w)
          /\ DebugOn.check_img_ptr msg (pure (B + 11)) (pure r) (pure view) w
            = Some (Next, w)
          /\ DebugOn.check_img_ptr msg (pure (B + 12)) (pure r) (pure view) w
            = Some (Ret r,
                    emit (pointer_violation_line msg (B + 12) view) w)).
Proof.
  intros L S R msg p r img w M.
  split; [|split; [|split]].
  - apply check_img_ptr_passes_iff.
  - split.
    + intros E. apply (check_img_ptr_fails_iff msg p r img w).
      rewrite E. symmetry. now apply check_img_ptr_block_runs.
    + intros O. rewrite check_img_ptr_outside by exact O.
      now apply check_img_ptr_block_runs.
  - apply computed_last_no_overflow.
  - intros B view.
    assert (Last : computed_last view = B + 11).
    { unfold computed_last, view. cbn [base ni nj si sj].
      change (int_mul (int_sub 4 1) 3) with 9.
      change (int_mul (int_sub 3 1) 1) with 2. lia. }
    split; [|split].
    + apply check_img_ptr_inside. rewrite Last. simpl. lia.
    + apply check_img_ptr_inside. rewrite Last. simpl. lia.
    + rewrite check_img_ptr_outside by (rewrite Last; simpl; lia).
      now apply check_img_ptr_block_runs.
Qed.

Lemma check_img_ptr_accepts_span_witness :
  mentions "%"%char "Array2D::value:" = false
  /\ DebugOn.check_img_ptr "Array2D::value:" (pure 1012) (pure 0)
       (pure {| base := 1000; ni := 4; nj := 3; si := 3; sj := 1 |})
       (World tt EmptyString)
     = Some (Ret 0,
             World tt ("Array2D::value:0x3f4 out of bound (0x3e8,4x3, 3x1"
                       ++ endl)%string).
Proof.
  split; [reflexivity|].
  destruct (check_img_ptr_accepts_span unit Z "Array2D::value:" 1012 0
              {| base := 1000; ni := 4; nj := 3; si := 3; sj := 1 |}
              (World tt EmptyString) eq_refl) as (_ & Report & _).
  apply Report. right; vm_compute; reflexivity.
Defined.

(** C3 as stated fails where a product overflows: for 65537 rows of
    stride 65536 the formula gives a last address far above the base,
    the product of type [int] is 0, the macro takes the base for the last
    address and reports the pointer [base + 1].  It fails as well on a
    label that ends in [%]: the format then asks [%d] for a pointer, and
    the call has no defined outcome. *)
Lemma check_img_ptr_span_overflow :
  let tall := {| base := 1000; ni := 65537; nj := 1; si := 65536; sj := 1 |} in
  let view := {| base := 1000; ni := 4; nj := 3; si := 3; sj := 1 |} in
  int_members tall
  /\ base tall <= 1001 <= last_address tall
  /\ DebugOn.check_img_ptr "p:" (pure 1001) (pure 0) (pure tall)
       (World tt EmptyString)
     = Some (Ret 0,
             World tt ("p:0x3e9 out of bound (0x3e8,65537x65536, 1x1"
                       ++ endl)%string)
  /\ 1012 > last_address view
  /\ DebugOn.check_img_ptr "ratio%" (pure 1012) (pure 0) (pure view)
       (World tt EmptyString)
     = None.
Proof.
  intros tall view.
  split; [unfold int_members, fits_int, int_min, int_max; simpl; lia|].
  split; [unfold last_address; simpl; lia|].
  repeat split; reflexivity.
Qed.

(** C6, as amended.  With non-negative strides, extents of at least one
    and no overflow in the differences and products the macro computes,
    no element of the view is reported: for [0 <= i < ni] and
    [0 <= j < nj] the address [base + i*si + j*sj] passes the enabled
    pointer check. *)
Theorem check_img_ptr_passes_elements :
  forall `{Libc} (S R : Type) (msg : string) (r : expr S R)
         (img : BufferDescriptor) (p : Z) (w : world S),
    0 <= si img -> 0 <= sj img -> 1 <= ni img -> 1 <= nj img ->
    no_overflow img ->
    element_address img p ->
    DebugOn.check_img_ptr msg (pure p) r (pure img) w = Some (Next, w).
Proof.
  intros L S R msg r img p w Hsi Hsj Hni Hnj NoOv (i & j & Hi & Hj & ->).
  apply check_img_ptr_inside.
  rewrite (computed_last_no_overflow img NoOv). unfold last_address.
  assert (0 <= i * si img) by (apply Z.mul_nonneg_nonneg; lia).
  assert (0 <= j * sj img) by (apply Z.mul_nonneg_nonneg; lia).
  assert (i * si img <= (ni img - 1) * si img)
    by (apply Z.mul_le_mono_nonneg_r; lia).
  assert (j * sj img <= (nj img - 1) * sj img)
    by (apply Z.mul_le_mono_nonneg_r; lia).
  lia.
Qed.

Lemma check_img_ptr_passes_elements_witness :
  let view := {| base := 1000; ni := 4; nj := 3; si := 3; sj := 1 |} in
  0 <= si view /\ 0 <= sj view /\ 1 <= ni view /\ 1 <= nj view
  /\ no_overflow view
  /\ element_address view 1007
  /\ DebugOn.check_img_ptr "Array2D::value:" (pure 1007)
       (fun _ : world unit => @None (Z * world unit)) (pure view)
       (World tt EmptyString)
     = Some (Next, World tt EmptyString).
Proof.
  intros view.
  assert (E : element_address view 1007).
  { exists 2, 1. simpl. lia. }
  assert (NoOv : no_overflow view).
  { unfold no_overflow, fits_int, int_min, int_max. simpl. lia. }
  repeat (split; [simpl; lia|]). split; [exact NoOv|]. split; [exact E|].
  apply (check_img_ptr_passes_elements unit Z "Array2D::value:" (fun _ => None)
           view 1007 (World tt EmptyString)); simpl; try lia.
  - exact NoOv.
  - exact E.
Defined.

(** C6 as stated fails where a product overflows: in the view of 65537
    rows of stride 65536 the product [(ni - 1) * si] of type [int] is 0,
    the macro takes the base for the last address, and the first element
    of the second row is reported. *)
Lemma check_img_ptr_element_rejected_on_overflow :
  let tall := {| base := 1000; ni := 65537; nj := 1; si := 65536; sj := 1 |} in
  int_members tall
  /\ 0 <= si tall /\ 0 <= sj tall /\ 1 <= ni tall /\ 1 <= nj tall
  /\ element_address tall 66536
  /\ DebugOn.check_img_ptr "p:" (pure 66536) (pure 0) (pure tall)
       (World tt EmptyString)
     = Some (Ret 0,
             World tt ("p:0x103e8 out of bound (0x3e8,65537x65536, 1x1"
                       ++ endl)%string).
Proof.
  intros tall.
  split; [unfold int_members, fits_int, int_min, int_max; simpl; lia|].
  repeat (split; [simpl; lia|]).
  split; [exists 1, 0; simpl; lia | reflexivity].
Qed.

(** C7.  The enabled pointer check looks at the span only, not at the
    strides: in the view of two rows of two elements with row stride 4,
    the address [base + 2] lies in the gap between the rows, is no
    element address, and passes. *)
Theorem check_img_ptr_ignores_alignment :
  exists (img : BufferDescriptor) (p : Z),
    base img <= p <= last_address img
    /\ ~ element_address img p
    /\ forall (L : Libc) (S R : Type) (msg : string) (r : expr S R)
              (w : world S),
         DebugOn.check_img_ptr msg (pure p) r (pure img) w = Some (Next, w).
Proof.
  exists {| base := 1000; ni := 2; nj := 2; si := 4; sj := 1 |}, 1002.
  assert (I : 1000 <= 1002 <= 1005) by lia.
  split; [exact I|]. split.
  - intros (i & j & Hi & Hj & E). cbn [base ni nj si sj] in Hi, Hj, E. lia.
  - intros L S R msg r w. apply check_img_ptr_inside. exact I.
Qed.

(** C5, as amended.  For a view with [ni = 0] or [nj = 0] on which the
    differences and products of the macro do not overflow, the switch
    enabled and a label that holds no conversion character [%]: every
    pointer, the base included, is reported, the diagnostic line printed
    and [r] returned, if and only if the stride of an empty axis exceeds
    what the other axis spans, that is [ni = 0] and
    [(nj - 1) * sj < si], or [nj = 0] and [(ni - 1) * si < sj]; when that
    is not so, the pointer [base] passes. *)
Theorem check_img_ptr_empty_view :
  forall `{Libc} (S R : Type) (msg : string) (r : R)
         (img : BufferDescriptor) (w : world S),
    mentions "%"%char msg = false ->
    no_overflow img ->
    ni img = 0 \/ nj img = 0 ->
    ((forall p : Z,
         DebugOn.check_img_ptr msg (pure p) (pure r) (pure img) w
         = Some (Ret r, emit (pointer_violation_line msg p img) w))
     <-> (ni img = 0 /\ (nj img - 1) * sj img < si img)
         \/ (nj img = 0 /\ (ni img - 1) * si img < sj img))
    /\ (~ ((ni img = 0 /\ (nj img - 1) * sj img < si img)
           \/ (nj img = 0 /\ (ni img - 1) * si img < sj img)) ->
        DebugOn.check_img_ptr msg (pure (base img)) (pure r) (pure img) w
        = Some (Next, w)).
Proof.
  intros L S R msg r img w M NoOv Empty.
  pose proof (computed_last_no_overflow img NoOv) as Last.
  assert (Below : last_address img < base img
                  <-> (ni img = 0 /\ (nj img - 1) * sj img < si img)
                      \/ (nj img = 0 /\ (ni img - 1) * si img < sj img)).
  { unfold last_address. destruct Empty as [E|E]; rewrite E; lia. }
  split; [split|].
  - intros All. apply Below. rewrite <- Last.
    specialize (All (base img)).
    destruct (Z_lt_le_dec (computed_last img) (base img)) as [Lt|Ge];
      [exact Lt|].
    rewrite check_img_ptr_inside in All by lia. discriminate.
  - intros Cond p. apply Below in Cond. rewrite <- Last in Cond.
    rewrite check_img_ptr_outside by lia.
    now apply check_img_ptr_block_runs.
  - intros NotCond. apply check_img_ptr_inside. rewrite Last.
    destruct (Z_lt_le_dec (last_address img) (base img)) as [Lt|Ge]; [|lia].
    now apply Below in Lt.
Qed.

Lemma check_img_ptr_empty_view_witness :
  let view := {| base := 1000; ni := 0; nj := 3; si := 3; sj := 1 |} in
  mentions "%"%char "Array2D::value:" = false
  /\ no_overflow view
  /\ (ni view = 0 \/ nj view = 0)
  /\ (ni view = 0 /\ (nj view - 1) * sj view < si view)
  /\ DebugOn.check_img_ptr "Array2D::value:" (pure 1000) (pure 0) (pure view)
       (World tt EmptyString)
     = Some (Ret 0,
             World tt ("Array2D::value:0x3e8 out of bound (0x3e8,0x3, 3x1"
                       ++ endl)%string).
Proof.
  intros view.
  assert (NoOv : no_overflow view).
  { unfold no_overflow, fits_int, int_min, int_max. simpl. lia. }
  assert (Cond : ni view = 0 /\ (nj view - 1) * sj view < si view).
  { split; [reflexivity | simpl; lia]. }
  split; [reflexivity|]. split; [exact NoOv|].
  split; [left; reflexivity|]. split; [exact Cond|].
  destruct (check_img_ptr_empty_view unit Z "Array2D::value:" 0 view
              (World tt EmptyString) eq_refl NoOv (or_introl eq_refl))
    as [[_ Fails] _].
  exact (Fails (or_introl Cond) 1000).
Defined.

(** C5 as stated fails on an empty view whose last address is not below
    its base: ten rows of no element, both strides 1, gives
    [last = base + 9 - 1], and the pointer [base] passes. *)
Lemma check_img_ptr_empty_view_base_passes :
  let view := {| base := 1000; ni := 10; nj := 0; si := 1; sj := 1 |} in
  nj view = 0
  /\ DebugOn.check_img_ptr "Array2D::value:" (pure (base view)) (pure 0)
       (pure view) (World tt EmptyString)
     = Some (Next, World tt EmptyString).
Proof. split; reflexivity. Qed.

(** ** The switch disabled *)

(** C4.  With the switch disabled ([DEBUG] defined as 0) both macros are
    the empty statement: whatever expressions stand for the arguments,
    also expressions with effects or without value, the check falls
    through and leaves the state, the standard output included, as it
    was; none of the arguments is evaluated, and the statements after the
    check run as if the check were not there. *)
Theorem disabled_checks_do_nothing :
  forall `{Libc} (S R : Type) (msg : string) (x n p : expr S Z)
         (r : expr S R) (img : expr S BufferDescriptor)
         (rest : stmt S R) (w : world S),
    check_under 0 msg x n r w = Some (Next, w)
    /\ check_img_ptr_under 0 msg p r img w = Some (Next, w)
    /\ (check_under 0 msg x n r ;; rest)%cpp w = rest w
    /\ (check_img_ptr_under 0 msg p r img ;; rest)%cpp w = rest w.
Proof. intros. repeat split; reflexivity. Qed.

(** ** Outcomes *)

Section Outcomes.
Context `{Libc} {S R : Type}.

Lemma emit_empty (w : world S) : emit EmptyString w = w.
Proof. destruct w as [m out]. unfold emit. simpl. now rewrite append_empty_r. Qed.

(** Whatever the label, the text of a format that ends in a line feed
    holds that line feed. *)
Lemma format_line_mentions_LF (f : string) (args : list arg) (text : string) :
  format (f ++ endl)%string args = Some text -> mentions LF text = true.
Proof.
  remember (String.length f) as k eqn:Hk. revert f Hk args text.
  induction k as [k IH] using lt_wf_ind. intros f Hk args text.
  destruct f as [|c f]; simpl.
  { intros [= <-]. reflexivity. }
  destruct (Ascii.eqb c "%") eqn:Ec.
  - destruct f as [|c' f]; simpl; [discriminate|].
    simpl in Hk.
    destruct (Ascii.eqb c' "%").
    { destruct (format (f ++ endl)%string args) as [t|] eqn:F; [|discriminate].
      intros [= <-]. simpl.
      apply (IH (String.length f)) in F; [exact F | lia | reflexivity]. }
    destruct (Ascii.eqb c' "d").
    { destruct args as [|[z|a] args]; try discriminate.
      destruct (format (f ++ endl)%string args) as [t|] eqn:F; [|discriminate].
      intros [= <-]. rewrite mentions_append.
      apply (IH (String.length f)) in F; [|lia|reflexivity].
      rewrite F. apply orb_true_r. }
    destruct (Ascii.eqb c' "p"); [|discriminate].
    destruct args as [|[z|a] args]; try discriminate.
    destruct (format (f ++ endl)%string args) as [t|] eqn:F; [|discriminate].
    intros [= <-]. rewrite mentions_append.
    apply (IH (String.length f)) in F; [|lia|reflexivity].
    rewrite F. apply orb_true_r.
  - destruct (format (f ++ endl)%string args) as [t|] eqn:F; [|discriminate].
    intros [= <-]. simpl. simpl in Hk.
    apply (IH (String.length f)) in F; [|lia|reflexivity].
    rewrite F. apply orb_true_r.
Qed.

(** A statement that replays an outcome whose text is empty exactly when
    it falls through repeats itself. *)
Lemma replay_repeats (o : outcome R) (w : world S) :
  (forall f text, o = Some (f, text) -> (f = Next <-> text = EmptyString)) ->
  repeats (replay o) w.
Proof.
  intros Shape. unfold repeats, replay.
  destruct o as [[f text]|]; [|reflexivity].
  exists text. repeat split; now apply (Shape f text).
Qed.

Lemma repeats_ext (s s' : stmt S R) (w : world S) :
  (forall w', s w' = s' w') -> repeats s' w -> repeats s w.
Proof.
  intros E. unfold repeats. rewrite (E w).
  destruct (s' w) as [[f w1]|].
  - intros (text & E1 & E2 & E3). exists text. now rewrite E.
  - intros N w'. now rewrite E.
Qed.

(** Each block replays the outcome of its [printf]: the text of the
    format, then [return r]. *)
Lemma check_block_replays (msg : string) (x n : Z) (r : R) (w : world S) :
  DebugOn.check_block msg (pure x) (pure n) (pure r) w =
  replay match format (msg ++ "%d out of bound (%d)" ++ endl)%string
                      [Int x; Int n] with
         | Some text => Some (Ret r, text)
         | None => None
         end w.
Proof.
  unfold DebugOn.check_block, Seq, Return, printf, eval_args, as_int, bind,
    pure, replay.
  now destruct (format _ _).
Qed.

Lemma check_img_ptr_block_replays (msg : string) (p : Z) (r : R)
    (img : BufferDescriptor) (w : world S) :
  DebugOn.check_img_ptr_block msg (pure p) (pure r) (pure img) w =
  replay match format (msg ++ "%p out of bound (%p,%dx%d, %dx%d" ++ endl)%string
                      [Ptr p; Ptr (base img); Int (ni img); Int (si img);
                       Int (nj img); Int (sj img)] with
         | Some text => Some (Ret r, text)
         | None => None
         end w.
Proof.
  unfold DebugOn.check_img_ptr_block, Seq, Return, printf, eval_args, as_int,
    as_ptr, member, bind, pure, replay.
  now destruct (format _ _).
Qed.

Lemma skip_repeats (w : world S) : repeats (@skip S R) w.
Proof.
  apply (repeats_ext _ (replay (Some (Next, EmptyString)))).
  - intros w'. unfold replay. now rewrite emit_empty.
  - apply replay_repeats. now intros f text [= <- <-].
Qed.

(** The outcome of a [printf] of a line, followed by [return r]. *)
Lemma line_then_return_repeats (f : string) (args : list arg) (r : R)
    (w : world S) :
  repeats (replay match format (f ++ endl)%string args with
                  | Some text => Some (Ret r, text)
                  | None => None
                  end) w.
Proof.
  apply replay_repeats. intros fl text.
  destruct (format (f ++ endl)%string args) as [t|] eqn:F; [|discriminate].
  intros [= <- <-]. split; [discriminate|].
  intros ->. now apply format_line_mentions_LF in F.
Qed.

Lemma check_repeats (msg : string) (x n : Z) (r : R) (w : world S) :
  repeats (DebugOn.check msg (pure x) (pure n) (pure r)) w.
Proof.
  destruct ((x <? 0) || (x >=? n))%bool eqn:T.
  - eapply repeats_ext.
    + intros w'. rewrite check_decides, T, check_block_replays.
      rewrite <- append_assoc. reflexivity.
    + apply line_then_return_repeats.
  - eapply repeats_ext; [|apply skip_repeats].
    intros w'. now rewrite check_decides, T.
Qed.

Lemma check_img_ptr_repeats (msg : string) (p : Z) (r : R)
    (img : BufferDescriptor) (w : world S) :
  repeats (DebugOn.check_img_ptr msg (pure p) (pure r) (pure img)) w.
Proof.
  destruct ((p <? base img) || (p >? computed_last img))%bool eqn:T.
  - eapply repeats_ext.
    + intros w'. rewrite check_img_ptr_decides, T, check_img_ptr_block_replays.
      rewrite <- append_assoc. reflexivity.
    + apply line_then_return_repeats.
  - eapply repeats_ext; [|apply skip_repeats].
    intros w'. now rewrite check_img_ptr_decides, T.
Qed.
End Outcomes.

(** ** Repeated invocations *)

(** C8.  Whatever the value of the switch, each of the two checks,
    invoked on the same values twice in a row, ends the same way both
    times, pass or fail, and writes the same text both times: nothing on
    a pass, and on a failure its diagnostic at each invocation, the second
    after the first on the standard output. *)
Theorem checks_repeat :
  forall `{Libc} (S R : Type) (debug : Z) (msg : string) (x n p : Z) (r : R)
         (img : BufferDescriptor) (w : world S),
    repeats (check_under debug msg (pure x) (pure n) (pure r)) w
    /\ repeats (check_img_ptr_under debug msg (pure p) (pure r) (pure img)) w.
Proof.
  intros L S R debug msg x n p r img w.
  unfold check_under, check_img_ptr_under, pp_if.
  destruct (debug =? 0).
  - split; apply skip_repeats.
  - split; [apply check_repeats | apply check_img_ptr_repeats].
Qed.

Lemma checks_repeat_twice_printed :
  let w := World tt EmptyString in
  let s := @check_under glibc unit Z 1 "i:" (pure 12) (pure 10) (pure 0) in
  let line := ("i:12 out of bound (10)" ++ endl)%string in
  s w = Some (Ret 0, World tt line)
  /\ s (World tt line) = Some (Ret 0, World tt (line ++ line)%string).
Proof. split; reflexivity. Qed.

(** ** The switch *)

(** C9.  The switch has two positions: a value of [DEBUG] other than 0
    selects the checking macros, the value 0 the empty ones.  The header
    defines [DEBUG] as 0, so that as shipped both macros are the empty
    statement, which falls through and leaves the state as it was. *)
Theorem debug_switch_default_off :
  forall `{Libc} (S R : Type),
    (forall debug : Z,
        (debug <> 0
         /\ @check_under _ S R debug = DebugOn.check
         /\ @check_img_ptr_under _ S R debug = DebugOn.check_img_ptr)
        \/ (debug = 0
            /\ @check_under _ S R debug = DebugOff.check
            /\ @check_img_ptr_under _ S R debug = DebugOff.check_img_ptr))
    /\ DEBUG = 0
    /\ @check _ S R = DebugOff.check
    /\ @check_img_ptr _ S R = DebugOff.check_img_ptr
    /\ (forall (msg : string) (x n p : expr S Z) (r : expr S R)
               (img : expr S BufferDescriptor) (w : world S),
          check msg x n r w = Some (Next, w)
          /\ check_img_ptr msg p r img w = Some (Next, w)).
Proof.
  intros L S R. split; [|repeat split; reflexivity].
  intros debug. unfold check_under, check_img_ptr_under, pp_if.
  destruct (Z.eqb_spec debug 0) as [E|N]; [right | left]; auto.
Qed.

(** ** Label and sentinel *)

Section LabelAndSentinel.
Context `{Libc} {S R : Type}.

(** What the sentinel is returned in place of another one. *)
Lemma check_swap_sentinel (msg : string) (x n : Z) (r1 r2 : R)
    (f1 : flow R) (w w1 : world S) :
  DebugOn.check msg (pure x) (pure n) (pure r1) w = Some (f1, w1) ->
  DebugOn.check msg (pure x) (pure n) (pure r2) w
  = Some (match f1 with Next => Next | Ret _ => Ret r2 end, w1).
Proof.
  rewrite !check_decides. destruct ((x <? 0) || (x >=? n)).
  - rewrite !check_block_replays. unfold replay.
    destruct (format _ _); [|discriminate]. now intros [= <- <-].
  - now intros [= <- <-].
Qed.

Lemma check_img_ptr_swap_sentinel (msg : string) (p : Z) (r1 r2 : R)
    (img : BufferDescriptor) (f1 : flow R) (w w1 : world S) :
  DebugOn.check_img_ptr msg (pure p) (pure r1) (pure img) w = Some (f1, w1) ->
  DebugOn.check_img_ptr msg (pure p) (pure r2) (pure img) w
  = Some (match f1 with Next => Next | Ret _ => Ret r2 end, w1).
Proof.
  rewrite !check_img_ptr_decides. destruct (_ || _).
  - rewrite !check_img_ptr_block_replays. unfold replay.
    destruct (format _ _); [|discriminate]. now intros [= <- <-].
  - now intros [= <- <-].
Qed.

Lemma check_swap_label (msg1 msg2 : string) (x n : Z) (r : R)
    (f1 f2 : flow R) (w w1 w2 : world S) :
  DebugOn.check msg1 (pure x) (pure n) (pure r) w = Some (f1, w1) ->
  DebugOn.check msg2 (pure x) (pure n) (pure r) w = Some (f2, w2) ->
  f1 = f2 /\ store w1 = store w2.
Proof.
  rewrite !check_decides. destruct ((x <? 0) || (x >=? n)).
  - rewrite !check_block_replays. unfold replay.
    do 2 (destruct (format _ _); [|discriminate]).
    now intros [= <- <-] [= <- <-].
  - now intros [= <- <-] [= <- <-].
Qed.

Lemma check_img_ptr_swap_label (msg1 msg2 : string) (p : Z) (r : R)
    (img : BufferDescriptor) (f1 f2 : flow R) (w w1 w2 : world S) :
  DebugOn.check_img_ptr msg1 (pure p) (pure r) (pure img) w = Some (f1, w1) ->
  DebugOn.check_img_ptr msg2 (pure p) (pure r) (pure img) w = Some (f2, w2) ->
  f1 = f2 /\ store w1 = store w2.
Proof.
  rewrite !check_img_ptr_decides. destruct (_ || _).
  - rewrite !check_img_ptr_block_replays. unfold replay.
    do 2 (destruct (format _ _); [|discriminate]).
    now intros [= <- <-] [= <- <-].
  - now intros [= <- <-] [= <- <-].
Qed.

(** Passing depends on the values tested alone. *)
Lemma check_passes_iff (msg : string) (x n : Z) (r : R) (w : world S) :
  DebugOn.check msg (pure x) (pure n) (pure r) w = Some (Next, w)
  <-> 0 <= x < n.
Proof.
  rewrite check_decides. destruct ((x <? 0) || (x >=? n)) eqn:T.
  - split.
    + intros E. now apply check_block_never_next in E.
    + intros I. exfalso. revert T. settle_tests.
  - split; [intros _|reflexivity]. revert T. settle_tests.
Qed.
End LabelAndSentinel.

(** C10.  With the switch enabled, whether a check passes does not depend
    on the label or on the sentinel: [check] on the same [x] and [n], and
    [check_img_ptr] on the same [p] and view, pass with one label and
    sentinel exactly when they pass with any other.  Changing the sentinel
    alone changes the value returned on failure and nothing else, the
    text written included; changing the label alone changes neither how
    the check ends nor the caller's state. *)
Theorem decision_ignores_label_and_sentinel :
  forall `{Libc} (S R : Type) (msg1 msg2 : string) (r1 r2 : R) (x n p : Z)
         (img : BufferDescriptor) (w : world S),
    (DebugOn.check msg1 (pure x) (pure n) (pure r1) w = Some (Next, w)
     <-> DebugOn.check msg2 (pure x) (pure n) (pure r2) w = Some (Next, w))
    /\ (DebugOn.check_img_ptr msg1 (pure p) (pure r1) (pure img) w
          = Some (Next, w)
        <-> DebugOn.check_img_ptr msg2 (pure p) (pure r2) (pure img) w
          = Some (Next, w))
    /\ (forall (f1 : flow R) (w1 : world S),
          DebugOn.check msg1 (pure x) (pure n) (pure r1) w = Some (f1, w1) ->
          DebugOn.check msg1 (pure x) (pure n) (pure r2) w
          = Some (match f1 with Next => Next | Ret _ => Ret r2 end, w1))
    /\ (forall (f1 : flow R) (w1 : world S),
          DebugOn.check_img_ptr msg1 (pure p) (pure r1) (pure img) w
            = Some (f1, w1) ->
          DebugOn.check_img_ptr msg1 (pure p) (pure r2) (pure img) w
          = Some (match f1 with Next => Next | Ret _ => Ret r2 end, w1))
    /\ (forall (f1 f2 : flow R) (w1 w2 : world S),
          DebugOn.check msg1 (pure x) (pure n) (pure r1) w = Some (f1, w1) ->
          DebugOn.check msg2 (pure x) (pure n) (pure r1) w = Some (f2, w2) ->
          f1 = f2 /\ store w1 = store w2)
    /\ (forall (f1 f2 : flow R) (w1 w2 : world S),
          DebugOn.check_img_ptr msg1 (pure p) (pure r1) (pure img) w
            = Some (f1, w1) ->
          DebugOn.check_img_ptr msg2 (pure p) (pure r1) (pure img) w
            = Some (f2, w2) ->
          f1 = f2 /\ store w1 = store w2).
Proof.
  intros L S R msg1 msg2 r1 r2 x n p img w.
  split; [|split; [|split; [|split; [|split]]]].
  - now rewrite !check_passes_iff.
  - now rewrite !check_img_ptr_passes_iff.
  - intros f1 w1. apply check_swap_sentinel.
  - intros f1 w1. apply check_img_ptr_swap_sentinel.
  - intros f1 f2 w1 w2. apply check_swap_label.
  - intros f1 f2 w1 w2. apply check_img_ptr_swap_label.
Qed.

Lemma decision_ignores_label_and_sentinel_witness :
  DebugOn.check "i:" (pure 12) (pure 10) (pure 0) (World tt EmptyString)
    = Some (Ret 0, World tt ("i:12 out of bound (10)" ++ endl)%string)
  /\ DebugOn.check "i:" (pure 12) (pure 10) (pure (-1)) (World tt EmptyString)
    = Some (Ret (-1), World tt ("i:12 out of bound (10)" ++ endl)%string).
Proof.
  assert (E : DebugOn.check "i:" (pure 12) (pure 10) (pure 0)
                (World tt EmptyString)
              = Some (Ret 0, World tt ("i:12 out of bound (10)" ++ endl)%string))
    by reflexivity.
  split; [exact E|].
  destruct (decision_ignores_label_and_sentinel unit Z "i:" "j:" 0 (-1)
              12 10 1000
              {| base := 1000; ni := 4; nj := 3; si := 3; sj := 1 |}
              (World tt EmptyString)) as (_ & _ & Swap & _).
  exact (Swap _ _ E).
Defined.

(** * Further properties of the macros *)

(** ** Arguments with effects *)

Section Effects.
Context `{Libc} {S R : Type}.

(** The index check with any expression for [x]: the test evaluates [x],
    and evaluates it again unless the first value is negative. *)
Lemma check_steps (msg : string) (x : expr S Z) (n : Z) (r : expr S R)
    (w : world S) :
  DebugOn.check msg x (pure n) r w =
  match x w with
  | None => None
  | Some (v1, w1) =>
      if v1 <? 0 then DebugOn.check_block msg x (pure n) r w1
      else match x w1 with
           | None => None
           | Some (v2, w2) =>
               if v2 >=? n then DebugOn.check_block msg x (pure n) r w2
               else Some (Next, w2)
           end
  end.
Proof.
  unfold DebugOn.check, IfThen, c_or, c_lt, c_ge, lift2, bind, pure, skip.
  destruct (x w) as [[v1 w1]|]; [|reflexivity].
  destruct (v1 <? 0); [reflexivity|].
  destruct (x w1) as [[v2 w2]|]; [|reflexivity].
  now destruct (v2 >=? n).
Qed.

(** The block evaluates [x] once more for [printf], then the sentinel. *)
Lemma check_block_steps (msg : string) (x : expr S Z) (n : Z) (r : expr S R)
    (w : world S) :
  DebugOn.check_block msg x (pure n) r w =
  match x w with
  | None => None
  | Some (v, w') =>
      match format (msg ++ "%d out of bound (%d)" ++ endl)%string
                   [Int v; Int n] with
      | None => None
      | Some text =>
          match r (emit text w') with
          | None => None
          | Some (rv, w'') => Some (Ret rv, w'')
          end
      end
  end.
Proof.
  unfold DebugOn.check_block, Seq, Return, printf, eval_args, as_int, bind,
    pure.
  destruct (x w) as [[v w']|]; [|reflexivity].
  destruct (format _ _); [|reflexivity].
  now destruct (r _) as [[rv w'']|].
Qed.

Lemma check_img_ptr_steps (msg : string) (p : expr S Z) (r : expr S R)
    (img : BufferDescriptor) (w : world S) :
  DebugOn.check_img_ptr msg p r (pure img) w =
  match p w with
  | None => None
  | Some (v1, w1) =>
      if v1 <? base img
      then DebugOn.check_img_ptr_block msg p r (pure img) w1
      else match p w1 with
           | None => None
           | Some (v2, w2) =>
               if v2 >? computed_last img
               then DebugOn.check_img_ptr_block msg p r (pure img) w2
               else Some (Next, w2)
           end
  end.
Proof.
  unfold DebugOn.check_img_ptr, IfThen, c_or, c_lt, c_gt, c_add, c_sub, c_mul,
    member, lift2, bind, pure, skip, computed_last.
  destruct (p w) as [[v1 w1]|]; [|reflexivity].
  destruct (v1 <? base img); [reflexivity|].
  destruct (p w1) as [[v2 w2]|]; [|reflexivity].
  now destruct (v2 >? _).
Qed.
End Effects.

(** X1.  On the passing path the enabled index check evaluates the
    expression given for [x] twice: the first value is compared with 0,
    the second with [n], and the effects of both evaluations stay. *)
Theorem check_pass_evaluates_index_twice :
  forall `{Libc} (S R : Type) (msg : string) (x : expr S Z) (n : Z)
         (r : expr S R) (w w1 w2 : world S) (v1 v2 : Z),
    x w = Some (v1, w1) -> 0 <= v1 ->
    x w1 = Some (v2, w2) -> v2 < n ->
    DebugOn.check msg x (pure n) r w = Some (Next, w2).
Proof.
  intros L S R msg x n r w w1 w2 v1 v2 E1 P1 E2 P2.
  rewrite check_steps, E1.
  replace (v1 <? 0) with false by (symmetry; apply Z.ltb_ge; lia).
  rewrite E2.
  replace (v2 >=? n) with false; [reflexivity|].
  symmetry. rewrite Z.geb_leb. apply Z.leb_gt. lia.
Qed.

Lemma check_pass_evaluates_index_twice_witness :
  let post_increment : expr Z Z :=
    fun w => Some (store w, World (store w + 1) (stdout w)) in
  post_increment (World 3 EmptyString) = Some (3, World 4 EmptyString)
  /\ 0 <= 3
  /\ post_increment (World 4 EmptyString) = Some (4, World 5 EmptyString)
  /\ 4 < 10
  /\ DebugOn.check "i:" post_increment (pure 10)
       (fun _ : world Z => @None (Z * world Z)) (World 3 EmptyString)
     = Some (Next, World 5 EmptyString).
Proof.
  intros post_increment.
  split; [reflexivity|]. split; [lia|]. split; [reflexivity|]. split; [lia|].
  apply (check_pass_evaluates_index_twice Z Z "i:" post_increment 10
           (fun _ => None) (World 3 EmptyString) (World 4 EmptyString)
           (World 5 EmptyString) 3 4); try reflexivity; lia.
Defined.

(** X2.  When the first value of [x] is negative, the enabled index check
    skips the comparison with [n] and evaluates [x] a second time for
    [printf]: the line shows the second value, not the one tested. *)
Theorem check_negative_prints_second_value :
  forall `{Libc} (S R : Type) (msg : string) (x : expr S Z) (n : Z) (r : R)
         (w w1 w2 : world S) (v1 v2 : Z),
    mentions "%"%char msg = false ->
    x w = Some (v1, w1) -> v1 < 0 ->
    x w1 = Some (v2, w2) ->
    DebugOn.check msg x (pure n) (pure r) w
    = Some (Ret r, emit (index_violation_line msg v2 n) w2).
Proof.
  intros L S R msg x n r w w1 w2 v1 v2 M E1 P1 E2.
  rewrite check_steps, E1.
  replace (v1 <? 0) with true by (symmetry; apply Z.ltb_lt; lia).
  rewrite check_block_steps, E2, (format_index msg v2 n M). reflexivity.
Qed.

Lemma check_negative_prints_second_value_witness :
  let post_increment : expr Z Z :=
    fun w => Some (store w, World (store w + 1) (stdout w)) in
  mentions "%"%char "i:" = false
  /\ post_increment (World (-1) EmptyString) = Some (-1, World 0 EmptyString)
  /\ -1 < 0
  /\ post_increment (World 0 EmptyString) = Some (0, World 1 EmptyString)
  /\ DebugOn.check "i:" post_increment (pure 10) (pure 7)
       (World (-1) EmptyString)
     = Some (Ret 7, World 1 ("i:0 out of bound (10)" ++ endl)%string).
Proof.
  intros post_increment.
  split; [reflexivity|]. split; [reflexivity|]. split; [lia|].
  split; [reflexivity|].
  apply (check_negative_prints_second_value Z Z "i:" post_increment 10 7
           (World (-1) EmptyString) (World 0 EmptyString)
           (World 1 EmptyString) (-1) 0); try reflexivity; lia.
Defined.

(** X3.  When the first value of [x] is not negative and the second is
    [n] or more, the enabled index check reports, whatever the first value
    was, and evaluates [x] a third time for [printf]: the line shows the
    third value. *)
Theorem check_too_large_prints_third_value :
  forall `{Libc} (S R : Type) (msg : string) (x : expr S Z) (n : Z) (r : R)
         (w w1 w2 w3 : world S) (v1 v2 v3 : Z),
    mentions "%"%char msg = false ->
    x w = Some (v1, w1) -> 0 <= v1 ->
    x w1 = Some (v2, w2) -> v2 >= n ->
    x w2 = Some (v3, w3) ->
    DebugOn.check msg x (pure n) (pure r) w
    = Some (Ret r, emit (index_violation_line msg v3 n) w3).
Proof.
  intros L S R msg x n r w w1 w2 w3 v1 v2 v3 M E1 P1 E2 P2 E3.
  rewrite check_steps, E1.
  replace (v1 <? 0) with false by (symmetry; apply Z.ltb_ge; lia).
  rewrite E2.
  replace (v2 >=? n) with true
    by (symmetry; rewrite Z.geb_leb; apply Z.leb_le; lia).
  rewrite check_block_steps, E3, (format_index msg v3 n M). reflexivity.
Qed.

Lemma check_too_large_prints_third_value_witness :
  let post_increment : expr Z Z :=
    fun w => Some (store w, World (store w + 1) (stdout w)) in
  mentions "%"%char "i:" = false
  /\ post_increment (World 9 EmptyString) = Some (9, World 10 EmptyString)
  /\ 0 <= 9
  /\ post_increment (World 10 EmptyString) = Some (10, World 11 EmptyString)
  /\ 10 >= 10
  /\ post_increment (World 11 EmptyString) = Some (11, World 12 EmptyString)
  /\ DebugOn.check "i:" post_increment (pure 10) (pure 7)
       (World 9 EmptyString)
     = Some (Ret 7, World 12 ("i:11 out of bound (10)" ++ endl)%string).
Proof.
  intros post_increment.
  split; [reflexivity|]. split; [reflexivity|]. split; [lia|].
  split; [reflexivity|]. split; [lia|]. split; [reflexivity|].
  apply (check_too_large_prints_third_value Z Z "i:" post_increment 10 7
           (World 9 EmptyString) (World 10 EmptyString)
           (World 11 EmptyString) (World 12 EmptyString) 9 10 11);
    try reflexivity; lia.
Defined.

(** X4.  On the passing path the enabled pointer check evaluates the
    expression given for [p] twice: the first value is compared with the
    base, the second with the last address as the macro computes it in
    [int], and the effects of both evaluations stay. *)
Theorem check_img_ptr_pass_evaluates_pointer_twice :
  forall `{Libc} (S R : Type) (msg : string) (p : expr S Z) (r : expr S R)
         (img : BufferDescriptor) (w w1 w2 : world S) (v1 v2 : Z),
    p w = Some (v1, w1) -> base img <= v1 ->
    p w1 = Some (v2, w2) -> v2 <= computed_last img ->
    DebugOn.check_img_ptr msg p r (pure img) w = Some (Next, w2).
Proof.
  intros L S R msg p r img w w1 w2 v1 v2 E1 P1 E2 P2.
  rewrite check_img_ptr_steps, E1.
  replace (v1 <? base img) with false by (symmetry; apply Z.ltb_ge; lia).
  rewrite E2.
  replace (v2 >? _) with false; [reflexivity|].
  symmetry. rewrite Z.gtb_ltb. apply Z.ltb_ge. exact P2.
Qed.

Lemma check_img_ptr_pass_evaluates_pointer_twice_witness :
  let post_increment : expr Z Z :=
    fun w => Some (store w, World (store w + 1) (stdout w)) in
  let view := {| base := 1000; ni := 4; nj := 3; si := 3; sj := 1 |} in
  post_increment (World 1000 EmptyString) = Some (1000, World 1001 EmptyString)
  /\ base view <= 1000
  /\ post_increment (World 1001 EmptyString)
     = Some (1001, World 1002 EmptyString)
  /\ 1001 <= computed_last view
  /\ DebugOn.check_img_ptr "p:" post_increment
       (fun _ : world Z => @None (Z * world Z)) (pure view)
       (World 1000 EmptyString)
     = Some (Next, World 1002 EmptyString).
Proof.
  intros post_increment view.
  split; [reflexivity|]. split; [simpl; lia|]. split; [reflexivity|].
  split; [vm_compute; discriminate|].
  apply (check_img_ptr_pass_evaluates_pointer_twice Z Z "p:" post_increment
           (fun _ => None) view (World 1000 EmptyString)
           (World 1001 EmptyString) (World 1002 EmptyString) 1000 1001);
    first [reflexivity | vm_compute; discriminate].
Defined.

(** ** The sentinel *)

(** X5.  On a violation the expression given for the sentinel is
    evaluated once, after the diagnostic line has been written: it runs
    in the state that holds the line, the function returns its value, and
    its effects stay.  When it has no value the check has no outcome.
    For the pointer check the violation is [p < base] or [p > last] with
    the last address as the macro computes it in [int]. *)
Theorem sentinel_evaluated_after_diagnostic :
  forall `{Libc} (S R : Type) (msg : string) (x n p : Z) (r : expr S R)
         (img : BufferDescriptor) (w : world S),
    mentions "%"%char msg = false ->
    x < 0 \/ x >= n ->
    p < base img \/ p > computed_last img ->
    DebugOn.check msg (pure x) (pure n) r w
    = match r (emit (index_violation_line msg x n) w) with
      | Some (v, w') => Some (Ret v, w')
      | None => None
      end
    /\ DebugOn.check_img_ptr msg (pure p) r (pure img) w
       = match r (emit (pointer_violation_line msg p img) w) with
         | Some (v, w') => Some (Ret v, w')
         | None => None
         end.
Proof.
  intros L S R msg x n p r img w M Ox Op. split.
  - rewrite check_decides.
    replace ((x <? 0) || (x >=? n)) with true by (symmetry; settle_tests).
    rewrite check_block_steps. unfold pure at 1.
    now rewrite (format_index msg x n M).
  - rewrite check_img_ptr_outside by exact Op.
    unfold DebugOn.check_img_ptr_block, Seq, Return, printf, eval_args,
      as_int, as_ptr, member, bind, pure.
    rewrite (format_pointer msg p img M).
    now destruct (r _) as [[v w']|].
Qed.

Lemma sentinel_evaluated_after_diagnostic_witness :
  let view := {| base := 1000; ni := 4; nj := 3; si := 3; sj := 1 |} in
  let count_lines : expr Z Z :=
    fun w => Some (store w + 1, World (store w + 1) (stdout w)) in
  mentions "%"%char "i:" = false
  /\ (12 < 0 \/ 12 >= 10)
  /\ (1012 < base view \/ 1012 > computed_last view)
  /\ DebugOn.check "i:" (pure 12) (pure 10) count_lines
       (World 0 EmptyString)
     = Some (Ret 1, World 1 ("i:12 out of bound (10)" ++ endl)%string).
Proof.
  intros view count_lines.
  assert (Ox : 12 < 0 \/ 12 >= 10) by (right; lia).
  assert (Op : 1012 < base view \/ 1012 > computed_last view)
    by (right; vm_compute; reflexivity).
  split; [reflexivity|]. split; [exact Ox|]. split; [exact Op|].
  destruct (sentinel_evaluated_after_diagnostic Z Z "i:" 12 10 1012
              count_lines view (World 0 EmptyString) eq_refl Ox Op)
    as [Index _].
  rewrite Index. reflexivity.
Defined.

(** ** The two builds *)

(** X6.  On values within bounds the two builds cannot be told apart:
    whatever the value of [DEBUG], the index check on [0 <= x < n] and the
    pointer check on [base <= p <= last], the last address as the macro
    computes it in [int], fall through and leave the state as it was. *)
Theorem builds_agree_within_bounds :
  forall `{Libc} (S R : Type) (debug1 debug2 : Z) (msg : string) (x n p : Z)
         (r : expr S R) (img : BufferDescriptor) (w : world S),
    0 <= x < n ->
    base img <= p <= computed_last img ->
    check_under debug1 msg (pure x) (pure n) r w
    = check_under debug2 msg (pure x) (pure n) r w
    /\ check_img_ptr_under debug1 msg (pure p) r (pure img) w
       = check_img_ptr_under debug2 msg (pure p) r (pure img) w.
Proof.
  intros L S R debug1 debug2 msg x n p r img w Ix Ip.
  assert (On : DebugOn.check msg (pure x) (pure n) r w = Some (Next, w)).
  { rewrite check_decides.
    replace ((x <? 0) || (x >=? n)) with false by (symmetry; settle_tests).
    reflexivity. }
  pose proof (check_img_ptr_inside msg p r img w Ip) as Onp.
  unfold check_under, check_img_ptr_under, pp_if.
  destruct (debug1 =? 0), (debug2 =? 0); rewrite ?On, ?Onp; split; reflexivity.
Qed.

Lemma builds_agree_within_bounds_witness :
  let view := {| base := 1000; ni := 4; nj := 3; si := 3; sj := 1 |} in
  0 <= 3 < 10
  /\ base view <= 1004 <= computed_last view
  /\ @check_under glibc unit Z 1 "i:" (pure 3) (pure 10) (pure 0)
       (World tt EmptyString)
     = check_under 0 "i:" (pure 3) (pure 10) (pure 0) (World tt EmptyString).
Proof.
  intros view.
  assert (Ix : 0 <= 3 < 10) by lia.
  assert (Ip : base view <= 1004 <= computed_last view)
    by (split; vm_compute; discriminate).
  split; [exact Ix|]. split; [exact Ip|].
  exact (proj1 (builds_agree_within_bounds unit Z 1 0 "i:" 3 10 1004 (pure 0)
                  view (World tt EmptyString) Ix Ip)).
Defined.

(** ** Checks in a row *)

(** X7.  A function that checks two indices in a row and then returns [v]
    reports the first violation only: with the first index out of bounds
    it prints that line and returns the first sentinel, the second check
    not being run; with the first within bounds and the second out of
    bounds it prints the second line and returns the second sentinel; with
    both within bounds it prints nothing and returns [v]. *)
Theorem two_checks_report_first_violation :
  forall `{Libc} (S R : Type) (msg1 msg2 : string) (i ni j nj : Z)
         (r1 r2 v : R) (w : world S),
    mentions "%"%char msg1 = false ->
    mentions "%"%char msg2 = false ->
    call (DebugOn.check msg1 (pure i) (pure ni) (pure r1) ;;
          DebugOn.check msg2 (pure j) (pure nj) (pure r2) ;;
          Return (pure v))%cpp w
    = if (i <? 0) || (i >=? ni)
      then Some (r1, emit (index_violation_line msg1 i ni) w)
      else if (j <? 0) || (j >=? nj)
           then Some (r2, emit (index_violation_line msg2 j nj) w)
           else Some (v, w).
Proof.
  intros L S R msg1 msg2 i ni j nj r1 r2 v w M1 M2.
  unfold call, Seq, bind.
  rewrite check_decides. destruct ((i <? 0) || (i >=? ni)).
  - now rewrite (check_block_runs msg1 i ni r1 w M1).
  - rewrite check_decides. destruct ((j <? 0) || (j >=? nj)).
    + now rewrite (check_block_runs msg2 j nj r2 w M2).
    + reflexivity.
Qed.

Lemma two_checks_report_first_violation_witness :
  mentions "%"%char "i:" = false
  /\ mentions "%"%char "j:" = false
  /\ call (DebugOn.check "i:" (pure 12) (pure 10) (pure 0) ;;
           DebugOn.check "j:" (pure (-1)) (pure 10) (pure 1) ;;
           Return (pure 5))%cpp (World tt EmptyString)
     = Some (0, World tt ("i:12 out of bound (10)" ++ endl)%string).
Proof.
  split; [reflexivity|]. split; [reflexivity|].
  rewrite (two_checks_report_first_violation unit Z "i:" "j:" 12 10 (-1) 10
             0 1 5 (World tt EmptyString) eq_refl eq_refl).
  reflexivity.
Defined.

(** ** An empty index range *)

(** X8.  With [n <= 0] no index is within bounds: the enabled index check
    reports every [x]. *)
Theorem check_empty_range_rejects_all :
  forall `{Libc} (S R : Type) (msg : string) (x n : Z) (r : R) (w : world S),
    mentions "%"%char msg = false ->
    n <= 0 ->
    DebugOn.check msg (pure x) (pure n) (pure r) w
    = Some (Ret r, emit (index_violation_line msg x n) w).
Proof.
  intros L S R msg x n r w M E.
  rewrite check_decides.
  replace ((x <? 0) || (x >=? n)) with true by (symmetry; settle_tests).
  now apply check_block_runs.
Qed.

Lemma check_empty_range_rejects_all_witness :
  mentions "%"%char "i:" = false
  /\ 0 <= 0
  /\ DebugOn.check "i:" (pure 0) (pure 0) (pure 7) (World tt EmptyString)
     = Some (Ret 7, World tt ("i:0 out of bound (0)" ++ endl)%string).
Proof.
  split; [reflexivity|]. split; [lia|].
  apply (check_empty_range_rejects_all unit Z "i:" 0 0 7
           (World tt EmptyString)); [reflexivity | lia].
Defined.

(** ** Views of particular shapes *)

(** X9.  For a view of one element, whatever its strides, the enabled
    pointer check accepts the base and nothing else. *)
Theorem check_img_ptr_single_element :
  forall `{Libc} (S R : Type) (msg : string) (p : Z) (r : R)
         (img : BufferDescriptor) (w : world S),
    ni img = 1 -> nj img = 1 ->
    (DebugOn.check_img_ptr msg (pure p) (pure r) (pure img) w = Some (Next, w)
     <-> p = base img).
Proof.
  intros L S R msg p r img w Hni Hnj.
  rewrite check_img_ptr_passes_iff. unfold computed_last.
  rewrite Hni, Hnj. change (int_sub 1 1) with 0.
  unfold int_mul. rewrite !Z.mul_0_l. change (wrap_int 0) with 0. lia.
Qed.

Lemma check_img_ptr_single_element_witness :
  let view := {| base := 1000; ni := 1; nj := 1; si := -7; sj := 5 |} in
  ni view = 1 /\ nj view = 1
  /\ DebugOn.check_img_ptr "p:" (pure 1000) (pure 0) (pure view)
       (World tt EmptyString)
     = Some (Next, World tt EmptyString).
Proof.
  intros view. split; [reflexivity|]. split; [reflexivity|].
  apply (check_img_ptr_single_element unit Z "p:" 1000 0 view
           (World tt EmptyString) eq_refl eq_refl).
  reflexivity.
Defined.

(** X10.  For a dense view stored row after row, [si = nj] and [sj = 1],
    with at least one row and one column and no overflow in the
    differences and products the macro computes, the enabled pointer
    check is exact: a pointer passes if and only if it is the address of
    an element. *)
Theorem check_img_ptr_exact_on_dense_rows :
  forall `{Libc} (S R : Type) (msg : string) (p : Z) (r : R)
         (img : BufferDescriptor) (w : world S),
    si img = nj img -> sj img = 1 -> 1 <= ni img -> 1 <= nj img ->
    no_overflow img ->
    (DebugOn.check_img_ptr msg (pure p) (pure r) (pure img) w = Some (Next, w)
     <-> element_address img p).
Proof.
  intros L S R msg p r img w Hsi Hsj Hni Hnj NoOv.
  rewrite check_img_ptr_passes_iff, (computed_last_no_overflow img NoOv).
  unfold last_address, element_address.
  rewrite Hsi, Hsj. split.
  - intros [Lo Hi].
    exists ((p - base img) / nj img), ((p - base img) mod nj img).
    pose proof (Z.div_mod (p - base img) (nj img)) as DM.
    pose proof (Z.mod_pos_bound (p - base img) (nj img)) as MB.
    assert (0 <= (p - base img) / nj img) by (apply Z.div_pos; lia).
    assert ((p - base img) / nj img < ni img).
    { apply Z.div_lt_upper_bound; [lia|].
      replace (nj img * ni img) with ((ni img - 1) * nj img + nj img) by ring.
      lia. }
    repeat split; lia.
  - intros (i & j & Hi & Hj & ->).
    assert (0 <= i * nj img) by (apply Z.mul_nonneg_nonneg; lia).
    assert (i * nj img <= (ni img - 1) * nj img)
      by (apply Z.mul_le_mono_nonneg_r; lia).
    lia.
Qed.

Lemma check_img_ptr_exact_on_dense_rows_witness :
  let view := {| base := 1000; ni := 4; nj := 3; si := 3; sj := 1 |} in
  si view = nj view /\ sj view = 1 /\ 1 <= ni view /\ 1 <= nj view
  /\ no_overflow view
  /\ element_address view 1007.
Proof.
  intros view.
  assert (NoOv : no_overflow view).
  { unfold no_overflow, fits_int, int_min, int_max. simpl. lia. }
  split; [reflexivity|]. split; [reflexivity|].
  split; [simpl; lia|]. split; [simpl; lia|]. split; [exact NoOv|].
  apply (check_img_ptr_exact_on_dense_rows unit Z "p:" 1007 0 view
           (World tt EmptyString)); try reflexivity; try exact NoOv;
    simpl; lia.
Defined.

(** Why the extents must not be negative below: with [nj = -1] the
    product [(nj - 1) * sj] overflows, the macro computes a last address
    above the base, and the base passes. *)
Lemma check_img_ptr_dense_negative_extent_passes :
  let view := {| base := 1000; ni := 0; nj := -1;
                 si := -2147483647; sj := 2147483647 |} in
  int_members view
  /\ si view = nj view * sj view
  /\ DebugOn.check_img_ptr "p:" (pure 1000) (pure 0) (pure view)
       (World tt EmptyString)
     = Some (Next, World tt EmptyString).
Proof.
  intros view.
  split; [unfold int_members, fits_int, int_min, int_max; simpl; lia|].
  split; reflexivity.
Qed.

(** X11.  For a dense view stored row after row, [si = nj * sj] with
    [sj > 0], whose extents are not negative and whose extents and
    strides are values of type [int], and that has no row or no column:
    the last address, as the specification writes it and as the macro
    computes it, is one element below the base, and the enabled pointer
    check reports every pointer, the base included. *)
Theorem check_img_ptr_dense_empty_rejects_all :
  forall `{Libc} (S R : Type) (msg : string) (p : Z) (r : R)
         (img : BufferDescriptor) (w : world S),
    mentions "%"%char msg = false ->
    int_members img -> 0 <= ni img -> 0 <= nj img ->
    si img = nj img * sj img -> 0 < sj img ->
    ni img = 0 \/ nj img = 0 ->
    last_address img = base img - sj img
    /\ computed_last img = base img - sj img
    /\ DebugOn.check_img_ptr msg (pure p) (pure r) (pure img) w
       = Some (Ret r, emit (pointer_violation_line msg p img) w).
Proof.
  intros L S R msg p r img w M (Fni & Fnj & Fsi & Fsj) Pni Pnj Hsi Hsj Empty.
  assert (Last : last_address img = base img - sj img).
  { unfold last_address. rewrite Hsi.
    destruct Empty as [E|E]; rewrite E; ring. }
  assert (NoOv : no_overflow img).
  { unfold fits_int, int_min, int_max in *. unfold no_overflow, fits_int,
      int_min, int_max.
    destruct Empty as [E|E].
    - replace ((nj img - 1) * sj img) with (si img - sj img)
        by (rewrite Hsi; ring).
      rewrite E. lia.
    - assert (Zero : si img = 0) by (rewrite Hsi, E; ring).
      rewrite E, Zero, Z.mul_0_r. lia. }
  assert (Computed : computed_last img = base img - sj img)
    by (rewrite (computed_last_no_overflow img NoOv); exact Last).
  split; [exact Last|]. split; [exact Computed|].
  rewrite check_img_ptr_outside by lia.
  now apply check_img_ptr_block_runs.
Qed.

Lemma check_img_ptr_dense_empty_rejects_all_witness :
  let view := {| base := 1000; ni := 10; nj := 0; si := 0; sj := 1 |} in
  mentions "%"%char "p:" = false
  /\ int_members view /\ 0 <= ni view /\ 0 <= nj view
  /\ si view = nj view * sj view /\ 0 < sj view
  /\ (ni view = 0 \/ nj view = 0)
  /\ DebugOn.check_img_ptr "p:" (pure 1000) (pure 0) (pure view)
       (World tt EmptyString)
     = Some (Ret 0, World tt ("p:0x3e8 out of bound (0x3e8,10x0, 0x1"
                              ++ endl)%string).
Proof.
  intros view.
  assert (Ints : int_members view).
  { unfold int_members, fits_int, int_min, int_max. simpl. lia. }
  assert (Pni : 0 <= ni view) by (simpl; lia).
  assert (Pnj : 0 <= nj view) by (simpl; lia).
  split; [reflexivity|]. split; [exact Ints|].
  split; [exact Pni|]. split; [exact Pnj|].
  split; [reflexivity|]. split; [reflexivity|].
  split; [right; reflexivity|].
  exact (proj2 (proj2 (check_img_ptr_dense_empty_rejects_all unit Z "p:" 1000
                         0 view (World tt EmptyString) eq_refl Ints Pni Pnj
                         eq_refl eq_refl (or_intror eq_refl)))).
Defined.

(** X12.  With a negative row stride the enabled pointer check reports
    elements of the view: the first element of every row after the first
    lies below the base and is rejected. *)
Theorem check_img_ptr_negative_stride_rejects_elements :
  forall `{Libc} (S R : Type) (msg : string) (i : Z) (r : R)
         (img : BufferDescriptor) (w : world S),
    mentions "%"%char msg = false ->
    si img < 0 -> 1 <= i < ni img -> 1 <= nj img ->
    element_address img (base img + i * si img)
    /\ DebugOn.check_img_ptr msg (pure (base img + i * si img)) (pure r)
         (pure img) w
       = Some (Ret r,
               emit (pointer_violation_line msg (base img + i * si img) img)
                    w).
Proof.
  intros L S R msg i r img w M Hsi Hi Hnj. split.
  - exists i, 0. repeat split; try lia.
  - assert (i * si img < 0) by (apply Z.mul_pos_neg; lia).
    rewrite check_img_ptr_outside by lia.
    now apply check_img_ptr_block_runs.
Qed.

Lemma check_img_ptr_negative_stride_rejects_elements_witness :
  let view := {| base := 1000; ni := 4; nj := 3; si := -3; sj := 1 |} in
  mentions "%"%char "p:" = false
  /\ si view < 0 /\ 1 <= 2 < ni view /\ 1 <= nj view
  /\ DebugOn.check_img_ptr "p:" (pure 994) (pure 0) (pure view)
       (World tt EmptyString)
     = Some (Ret 0, World tt ("p:0x3e2 out of bound (0x3e8,4x-3, 3x1"
                              ++ endl)%string).
Proof.
  intros view.
  split; [reflexivity|]. split; [reflexivity|].
  split; [simpl; lia|]. split; [simpl; lia|].
  assert (Hi : 1 <= 2 < ni view) by (simpl; lia).
  assert (Hnj : 1 <= nj view) by (simpl; lia).
  exact (proj2 (check_img_ptr_negative_stride_rejects_elements unit Z "p:" 2 0
                  view (World tt EmptyString) eq_refl eq_refl Hi Hnj)).
Defined.

(** ** Labels and the format *)

Section Labels.
Context `{Libc}.
Local Open Scope string_scope.

(** A label with every percent sign doubled is printed as the text it
    stands for, and takes none of the arguments. *)
Lemma format_escape_percent (t fmt : string) (args : list arg) :
  format (escape_percent t ++ fmt) args
  = option_map (String.append t) (format fmt args).
Proof.
  induction t as [|c t IH]; simpl.
  - now destruct (format fmt args).
  - destruct (Ascii.eqb c "%") eqn:E.
    + apply Ascii.eqb_eq in E. subst c. simpl.
      rewrite IH. now destruct (format fmt args).
    + simpl. rewrite E, IH. now destruct (format fmt args).
Qed.

(** A label that ends in a percent sign turns the first [%d] of the
    index format into text. *)
Lemma format_index_after_percent (m : string) (x n : Z) :
  mentions "%"%char m = false ->
  format ((m ++ "%") ++ "%d out of bound (%d)" ++ endl) [Int x; Int n]
  = Some (m ++ "%d out of bound (" ++ show_int x ++ ")" ++ endl).
Proof.
  intros M. rewrite append_assoc, format_plain_prefix by exact M.
  reflexivity.
Qed.

Lemma append_inv_head (a b c : string) : a ++ b = a ++ c -> b = c.
Proof.
  induction a as [|x a IH]; simpl; intros E; [exact E|].
  injection E as E. now apply IH.
Qed.

(** Two texts cut at the first occurrence of a character agree part by
    part. *)
Lemma append_split_at (c : ascii) (a a' b b' : string) :
  mentions c a = false -> mentions c a' = false ->
  a ++ String c b = a' ++ String c b' -> a = a' /\ b = b'.
Proof.
  revert a'. induction a as [|x a IH]; intros [|x' a']; simpl.
  - intros _ _ [= ->]. now split.
  - intros _ M [= -> _]. now rewrite Ascii.eqb_refl in M.
  - intros M _ [= -> _]. now rewrite Ascii.eqb_refl in M.
  - intros M M' [= -> E].
    apply orb_false_elim in M as [_ M]. apply orb_false_elim in M' as [_ M'].
    destruct (IH a' M M' E) as [-> ->]. now split.
Qed.

Lemma show_uint_digits (c : ascii) (d : Decimal.uint) :
  (nat_of_ascii c < 48)%nat ->
  mentions c (DecimalString.NilEmpty.string_of_uint d) = false.
Proof.
  intros Low.
  assert (D : forall k : ascii, (48 <= nat_of_ascii k)%nat ->
                                Ascii.eqb k c = false).
  { intros k Hk. apply Ascii.eqb_neq. intros ->. lia. }
  induction d; cbn [mentions DecimalString.NilEmpty.string_of_uint];
    [reflexivity|..];
    rewrite IHd, D by (vm_compute; lia); reflexivity.
Qed.

(** A numeral holds no character below the digits other than the sign. *)
Lemma show_int_digits (c : ascii) (z : Z) :
  (nat_of_ascii c < 48)%nat -> c <> "-"%char ->
  mentions c (show_int z) = false.
Proof.
  intros Low NotSign.
  assert (Sign : Ascii.eqb "-" c = false) by (apply Ascii.eqb_neq; congruence).
  assert (Zero : Ascii.eqb "0" c = false).
  { apply Ascii.eqb_neq. intros <-. vm_compute in Low. lia. }
  unfold show_int, DecimalString.NilZero.string_of_int,
    DecimalString.NilZero.string_of_uint.
  destruct (Z.to_int z) as [d|d]; destruct d;
    cbn [mentions]; rewrite ?Sign, ?Zero; cbn [orb];
    try reflexivity;
    match goal with
    | |- mentions c (DecimalString.NilEmpty.string_of_uint ?u) = false =>
        apply (show_uint_digits c u Low)
    end.
Qed.

Lemma to_int_not_nil (z : Z) :
  Z.to_int z <> Decimal.Pos Decimal.Nil /\ Z.to_int z <> Decimal.Neg Decimal.Nil.
Proof.
  destruct z as [|q|q]; simpl; split; try discriminate;
    intros [= E]; now apply DecimalPos.Unsigned.to_uint_nonnil in E.
Qed.

(** The numeral determines the integer. *)
Lemma show_int_inj (x y : Z) : show_int x = show_int y -> x = y.
Proof.
  unfold show_int. intros E.
  apply DecimalZ.to_int_inj.
  destruct (to_int_not_nil x) as [Px Nx], (to_int_not_nil y) as [Py Ny].
  pose proof (DecimalString.NilZero.isi (Z.to_int x) Px Nx) as Ex.
  pose proof (DecimalString.NilZero.isi (Z.to_int y) Py Ny) as Ey.
  rewrite E, Ey in Ex. now injection Ex.
Qed.

Lemma index_violation_line_inj (msg : string) (x n x' n' : Z) :
  index_violation_line msg x n = index_violation_line msg x' n' ->
  x = x' /\ n = n'.
Proof.
  unfold index_violation_line. intros E.
  apply append_inv_head in E.
  change (" out of bound (" ++ ?t) with (String " " ("out of bound (" ++ t)) in E.
  apply append_split_at in E as [Ex E];
    try (apply show_int_digits; [vm_compute; lia | discriminate]).
  apply append_inv_head in E.
  change (")" ++ endl) with (String ")" endl) in E.
  apply append_split_at in E as [En _];
    try (apply show_int_digits; [vm_compute; lia | discriminate]).
  split; now apply show_int_inj.
Qed.
End Labels.

(** X13.  A label in which every percent sign is doubled is printed as
    the text it stands for: with the label [escape_percent t] the
    diagnostic of either check starts with [t], for any text [t], and is
    otherwise as for a label without percent sign.  For the pointer
    check the violation is [p < base] or [p > last] with the last address
    as the macro computes it in [int]. *)
Theorem escaped_label_printed_as_text :
  forall `{Libc} (S R : Type) (t : string) (x n p : Z) (r : R)
         (img : BufferDescriptor) (w : world S),
    x < 0 \/ x >= n ->
    p < base img \/ p > computed_last img ->
    DebugOn.check (escape_percent t) (pure x) (pure n) (pure r) w
    = Some (Ret r, emit (index_violation_line t x n) w)
    /\ DebugOn.check_img_ptr (escape_percent t) (pure p) (pure r) (pure img) w
       = Some (Ret r, emit (pointer_violation_line t p img) w).
Proof.
  intros L S R t x n p r img w Ox Op. split.
  - rewrite check_decides.
    replace ((x <? 0) || (x >=? n)) with true by (symmetry; settle_tests).
    rewrite check_block_replays, format_escape_percent. reflexivity.
  - rewrite check_img_ptr_outside by exact Op.
    rewrite check_img_ptr_block_replays, format_escape_percent. reflexivity.
Qed.

Lemma escaped_label_printed_as_text_witness :
  let view := {| base := 1000; ni := 4; nj := 3; si := 3; sj := 1 |} in
  (-1 < 0 \/ -1 >= 10)
  /\ (1012 < base view \/ 1012 > computed_last view)
  /\ escape_percent "ratio%" = "ratio%%"%string
  /\ DebugOn.check "ratio%%" (pure (-1)) (pure 10) (pure 0)
       (World tt EmptyString)
     = Some (Ret 0, World tt ("ratio%-1 out of bound (10)" ++ endl)%string).
Proof.
  intros view.
  assert (Ox : -1 < 0 \/ -1 >= 10) by (left; lia).
  assert (Op : 1012 < base view \/ 1012 > computed_last view)
    by (right; vm_compute; reflexivity).
  split; [exact Ox|]. split; [exact Op|]. split; [reflexivity|].
  exact (proj1 (escaped_label_printed_as_text unit Z "ratio%" (-1) 10 1012 0
                  view (World tt EmptyString) Ox Op)).
Defined.

(** X14.  A label that ends in a single percent sign takes the first
    conversion of the index format: the line printed holds a percent
    sign and the letter [d] after the label, then [x] between the
    parentheses, and is the same for every [n]. *)
Theorem label_ending_in_percent_hides_bound :
  forall `{Libc} (S R : Type) (m : string) (x n : Z) (r : R) (w : world S),
    mentions "%"%char m = false ->
    x < 0 \/ x >= n ->
    DebugOn.check (m ++ "%")%string (pure x) (pure n) (pure r) w
    = Some (Ret r,
            emit (m ++ "%d out of bound (" ++ show_int x ++ ")" ++ endl)%string
                 w).
Proof.
  intros L S R m x n r w M O.
  rewrite check_decides.
  replace ((x <? 0) || (x >=? n)) with true by (symmetry; settle_tests).
  rewrite check_block_replays, (format_index_after_percent m x n M).
  reflexivity.
Qed.

Lemma label_ending_in_percent_hides_bound_witness :
  mentions "%"%char "ratio" = false
  /\ (-1 < 0 \/ -1 >= 10)
  /\ DebugOn.check "ratio%" (pure (-1)) (pure 10) (pure 0)
       (World tt EmptyString)
     = Some (Ret 0, World tt ("ratio%d out of bound (-1)" ++ endl)%string).
Proof.
  split; [reflexivity|]. split; [left; lia|].
  apply (label_ending_in_percent_hides_bound unit Z "ratio" (-1) 10 0
           (World tt EmptyString)); [reflexivity | left; lia].
Defined.

(** X15.  The diagnostic of the index check identifies the values
    reported: two violations under the same label, a label without
    percent sign, that leave the same output were raised for the same [x]
    and the same [n]. *)
Theorem index_diagnostic_identifies_values :
  forall `{Libc} (S R : Type) (msg : string) (x n x' n' : Z) (r r' : R)
         (w w1 : world S),
    mentions "%"%char msg = false ->
    x < 0 \/ x >= n ->
    x' < 0 \/ x' >= n' ->
    DebugOn.check msg (pure x) (pure n) (pure r) w = Some (Ret r, w1) ->
    DebugOn.check msg (pure x') (pure n') (pure r') w = Some (Ret r', w1) ->
    x = x' /\ n = n'.
Proof.
  intros L S R msg x n x' n' r r' w w1 M O O'.
  rewrite !check_decides.
  replace ((x <? 0) || (x >=? n)) with true by (symmetry; settle_tests).
  replace ((x' <? 0) || (x' >=? n')) with true by (symmetry; settle_tests).
  rewrite !check_block_runs by exact M.
  intros [= <-] [= E].
  apply append_inv_head in E. now apply index_violation_line_inj in E.
Qed.

Lemma index_diagnostic_identifies_values_witness :
  let w1 := World tt ("i:12 out of bound (10)" ++ endl)%string in
  mentions "%"%char "i:" = false
  /\ (12 < 0 \/ 12 >= 10)
  /\ DebugOn.check "i:" (pure 12) (pure 10) (pure 0) (World tt EmptyString)
     = Some (Ret 0, w1)
  /\ DebugOn.check "i:" (pure 12) (pure 10) (pure 1) (World tt EmptyString)
     = Some (Ret 1, w1)
  /\ 12 = 12 /\ 10 = 10.
Proof.
  intros w1.
  assert (O : 12 < 0 \/ 12 >= 10) by (right; lia).
  split; [reflexivity|]. split; [exact O|].
  split; [reflexivity|]. split; [reflexivity|].
  exact (index_diagnostic_identifies_values unit Z "i:" 12 10 12 10 0 1
           (World tt EmptyString) w1 eq_refl O O eq_refl eq_refl).
Defined.

(** X16.  For a dense view stored column after column, [si = 1] and
    [sj = ni], with at least one row and one column and no overflow in
    the differences and products the macro computes, the enabled pointer
    check is exact as well: a pointer passes if and only if it is the
    address of an element. *)
Theorem check_img_ptr_exact_on_dense_columns :
  forall `{Libc} (S R : Type) (msg : string) (p : Z) (r : R)
         (img : BufferDescriptor) (w : world S),
    si img = 1 -> sj img = ni img -> 1 <= ni img -> 1 <= nj img ->
    no_overflow img ->
    (DebugOn.check_img_ptr msg (pure p) (pure r) (pure img) w = Some (Next, w)
     <-> element_address img p).
Proof.
  intros L S R msg p r img w Hsi Hsj Hni Hnj NoOv.
  rewrite check_img_ptr_passes_iff, (computed_last_no_overflow img NoOv).
  unfold last_address, element_address.
  rewrite Hsi, Hsj. split.
  - intros [Lo Hi].
    exists ((p - base img) mod ni img), ((p - base img) / ni img).
    pose proof (Z.div_mod (p - base img) (ni img)) as DM.
    pose proof (Z.mod_pos_bound (p - base img) (ni img)) as MB.
    assert (0 <= (p - base img) / ni img) by (apply Z.div_pos; lia).
    assert ((p - base img) / ni img < nj img).
    { apply Z.div_lt_upper_bound; [lia|].
      replace (ni img * nj img) with ((nj img - 1) * ni img + ni img) by ring.
      lia. }
    repeat split; lia.
  - intros (i & j & Hi & Hj & ->).
    assert (0 <= j * ni img) by (apply Z.mul_nonneg_nonneg; lia).
    assert (j * ni img <= (nj img - 1) * ni img)
      by (apply Z.mul_le_mono_nonneg_r; lia).
    lia.
Qed.

Lemma check_img_ptr_exact_on_dense_columns_witness :
  let view := {| base := 1000; ni := 4; nj := 3; si := 1; sj := 4 |} in
  si view = 1 /\ sj view = ni view /\ 1 <= ni view /\ 1 <= nj view
  /\ no_overflow view
  /\ element_address view 1007.
Proof.
  intros view.
  assert (NoOv : no_overflow view).
  { unfold no_overflow, fits_int, int_min, int_max. simpl. lia. }
  split; [reflexivity|]. split; [reflexivity|].
  split; [simpl; lia|]. split; [simpl; lia|]. split; [exact NoOv|].
  apply (check_img_ptr_exact_on_dense_columns unit Z "p:" 1007 0 view
           (World tt EmptyString)); try reflexivity; try exact NoOv;
    simpl; lia.
Defined.

(** ** The line of the pointer check *)

Section PointerLine.
Local Open Scope string_scope.

Lemma show_hex_no_LF (d : Hexadecimal.uint) :
  mentions LF (HexadecimalString.NilEmpty.string_of_uint d) = false.
Proof. induction d; simpl; auto. Qed.

(** The rendering of glibc stays within the line. *)
Lemma glibc_show_ptr_no_LF (a : Z) : mentions LF (glibc_show_ptr a) = false.
Proof.
  unfold glibc_show_ptr. destruct (a =? 0)%Z; [reflexivity|].
  unfold HexadecimalString.NilZero.string_of_uint.
  destruct (N.to_hex_uint (Z.to_N a)); simpl; auto using show_hex_no_LF.
Qed.

Lemma pointer_violation_line_one_line `{Libc} (msg : string) (p : Z)
    (img : BufferDescriptor) :
  (forall a : Z, mentions LF (show_ptr a) = false) ->
  mentions LF msg = false ->
  one_line (pointer_violation_line msg p img) = true.
Proof.
  intros Ptr M. unfold pointer_violation_line.
  rewrite (one_line_append msg) by exact M.
  repeat first
    [ rewrite (one_line_append (show_ptr _)) by apply Ptr
    | rewrite (one_line_append (show_int _)) by apply show_int_no_LF
    | rewrite (one_line_append " out of bound (") by reflexivity
    | rewrite (one_line_append ",") by reflexivity
    | rewrite (one_line_append "x") by reflexivity
    | rewrite (one_line_append ", ") by reflexivity ].
  reflexivity.
Qed.
End PointerLine.

(** Finds a piece in a chain of appended texts. *)
Ltac find_piece :=
  repeat first
    [ apply occurs_prefix, prefix_append
    | apply occurs_append_l ].

(** X17.  With the switch enabled, a C library whose [%p] rendering holds
    no line feed, and a label that holds neither a percent sign nor a
    line feed: for a pointer below the base or above the last address as
    the macro computes it in [int], the function whose body
    reaches [check_img_ptr(msg, p, r, img)] returns [r], whatever follows
    the check in the body, and the standard output has grown by exactly
    one line, which starts with the label and holds the renderings of
    [p] and of the base and the numerals of both extents and both
    strides. *)
Theorem check_img_ptr_out_of_span_reports :
  forall `{Libc} (S R : Type) (msg : string) (p : Z) (r : R)
         (img : BufferDescriptor) (rest : stmt S R) (w : world S),
    (forall a : Z, mentions LF (show_ptr a) = false) ->
    plain_label msg = true ->
    p < base img \/ p > computed_last img ->
    call (DebugOn.check_img_ptr msg (pure p) (pure r) (pure img) ;; rest)%cpp w
      = Some (r, emit (pointer_violation_line msg p img) w)
    /\ one_line (pointer_violation_line msg p img) = true
    /\ String.prefix msg (pointer_violation_line msg p img) = true
    /\ occurs (show_ptr p) (pointer_violation_line msg p img) = true
    /\ occurs (show_ptr (base img)) (pointer_violation_line msg p img) = true
    /\ occurs (show_int (ni img)) (pointer_violation_line msg p img) = true
    /\ occurs (show_int (si img)) (pointer_violation_line msg p img) = true
    /\ occurs (show_int (nj img)) (pointer_violation_line msg p img) = true
    /\ occurs (show_int (sj img)) (pointer_violation_line msg p img) = true.
Proof.
  intros L S R msg p r img rest w Ptr P O.
  split.
  { apply call_ret, Seq_ret.
    rewrite check_img_ptr_outside by exact O.
    apply check_img_ptr_block_runs. auto with text. }
  split.
  { apply pointer_violation_line_one_line; auto with text. }
  unfold pointer_violation_line.
  split; [apply prefix_append|].
  repeat split; find_piece.
Qed.

Lemma check_img_ptr_out_of_span_reports_witness :
  let view := {| base := 1000; ni := 4; nj := 3; si := 3; sj := 1 |} in
  (forall a : Z, mentions LF (@show_ptr glibc a) = false)
  /\ plain_label "Array2D::value:" = true
  /\ (1012 < base view \/ 1012 > computed_last view)
  /\ call (DebugOn.check_img_ptr "Array2D::value:" (pure 1012) (pure 0)
             (pure view) ;; (fun _ : world unit => None))%cpp
       (World tt EmptyString)
     = Some (0, World tt ("Array2D::value:0x3f4 out of bound (0x3e8,4x3, 3x1"
                          ++ endl)%string).
Proof.
  intros view.
  assert (O : 1012 < base view \/ 1012 > computed_last view)
    by (right; vm_compute; reflexivity).
  split; [exact glibc_show_ptr_no_LF|]. split; [reflexivity|].
  split; [exact O|].
  exact (proj1 (check_img_ptr_out_of_span_reports unit Z "Array2D::value:"
                  1012 0 view (fun _ => None) (World tt EmptyString)
                  glibc_show_ptr_no_LF eq_refl O)).
Defined.
